(** * Event management (MERN): RSVP admission control, cancellation, listing
      and event mutation

    Shallow embedding of [server/routes/rsvp.js] and
    [server/routes/events.js].  Each route handler is a small program over
    the operations it performs on the [Event] collection and on the clock;
    the programs are run either alone (one request at a time) or as a pool
    of interleaved requests.

    Requests are taken after authentication and parsing: the caller and the
    event are given by their ids, instants in milliseconds.  Responses
    carry the stored document ([populate] is left out), an uploaded file
    is its name, and the store itself does not fail: of the [catch]
    branches only those a handler can reach through its own data are
    modelled. *)

From stdpp Require Import gmap strings list fin_maps sorting pretty.
From Stdlib Require Import ZArith Lia Ascii.

Local Open Scope Z_scope.

(** ** Data model *)

(** MongoDB [ObjectId]s.  Only equality is used by the routes
    ([a.toString() === b.toString()]), and [toString] is injective. *)
Abbreviation ObjectId := N (only parsing).

(** Modelled from the spec: the [Event] schema ([server/models/Event.js]
    is not among the sources).  Instants are milliseconds since the epoch;
    [rsvpOpenAt] may be unset on legacy records; [image] is the empty
    string when the event has no picture. *)
Record Event := mkEvent {
  title : string;
  description : string;
  date : Z;
  location : string;
  capacity : Z;
  attendees : list ObjectId;
  creator : ObjectId;
  createdAt : Z;
  rsvpOpenAt : option Z;
  image : string
}.

(** The [events] collection, keyed by [_id]. *)
Abbreviation Store := (gmap N Event) (only parsing).

(** Field assignments, [event.f = v]. *)
Definition set_attendees (v : list ObjectId) (e : Event) : Event :=
  mkEvent (title e) (description e) (date e) (location e) (capacity e) v
          (creator e) (createdAt e) (rsvpOpenAt e) (image e).
Definition set_title (v : string) (e : Event) : Event :=
  mkEvent v (description e) (date e) (location e) (capacity e) (attendees e)
          (creator e) (createdAt e) (rsvpOpenAt e) (image e).
Definition set_description (v : string) (e : Event) : Event :=
  mkEvent (title e) v (date e) (location e) (capacity e) (attendees e)
          (creator e) (createdAt e) (rsvpOpenAt e) (image e).
Definition set_date (v : Z) (e : Event) : Event :=
  mkEvent (title e) (description e) v (location e) (capacity e) (attendees e)
          (creator e) (createdAt e) (rsvpOpenAt e) (image e).
Definition set_location (v : string) (e : Event) : Event :=
  mkEvent (title e) (description e) (date e) v (capacity e) (attendees e)
          (creator e) (createdAt e) (rsvpOpenAt e) (image e).
Definition set_capacity (v : Z) (e : Event) : Event :=
  mkEvent (title e) (description e) (date e) (location e) v (attendees e)
          (creator e) (createdAt e) (rsvpOpenAt e) (image e).
Definition set_image (v : string) (e : Event) : Event :=
  mkEvent (title e) (description e) (date e) (location e) (capacity e)
          (attendees e) (creator e) (createdAt e) (rsvpOpenAt e) v.

(** ** Responses *)

(** The JSON bodies the routes send. *)
Inductive Json :=
  | JMessage (message : string)
  | JMessageEvent (message : string) (event : option Event)
  | JErrors (errors : list string)
  | JEvent (event : Event)
  | JEvents (events : list Event).

(** [res.status(c).json(b)]; [res.json(b)] alone has status 200. *)
Record Response := mkResponse { status : Z; json : Json }.

(** ** Route handlers as programs

    A handler is a tree of the operations it awaits.  Every constructor but
    [Ret] is one atomic access to the store or one reading of the clock,
    followed by the rest of the handler.  The session and transaction calls
    of the RSVP route ([startSession], [startTransaction],
    [abortTransaction], [commitTransaction], [endSession]) do not appear:
    the store is taken at the level of atomic single-document operations,
    where a write is visible as soon as it is applied. *)
Inductive Prog (R : Type) : Type :=
  | Ret (r : R)
  (** [new Date()] and [Date.now()] *)
  | NewDate (k : Z → Prog R)
  (** [Event.findById(id)] *)
  | FindById (id : ObjectId) (k : option Event → Prog R)
  (** [Event.updateOne({_id: id, ...filter}, update)]; the answer is
      [matchedCount] *)
  | UpdateOne (id : ObjectId) (filter : Event → bool) (update : Event → Event)
              (k : nat → Prog R)
  (** [doc.save()] on a document loaded by [findById]: the assigned paths
      are written to the stored document; the answer is [false] when the
      document is gone (the call throws) *)
  | Save (id : ObjectId) (assigned : Event → Event) (k : bool → Prog R)
  (** [new Event(doc).save()] *)
  | Insert (doc : Event) (k : ObjectId → Prog R)
  (** [Event.findByIdAndDelete(id)] *)
  | FindByIdAndDelete (id : ObjectId) (k : unit → Prog R)
  (** [Event.find(query).sort({date: 1})] *)
  | FindSorted (query : Event → bool) (k : list Event → Prog R).

Arguments Ret {R} r.
Arguments NewDate {R} k.
Arguments FindById {R} id k.
Arguments UpdateOne {R} id filter update k.
Arguments Save {R} id assigned k.
Arguments Insert {R} doc k.
Arguments FindByIdAndDelete {R} id k.
Arguments FindSorted {R} query k.

Notation "'let!' x ':=' op 'in' k" := (op (λ x, k))
  (at level 10, x binder, op at level 10, k at level 200, only parsing).

(** ** The store's operations *)

(** [updateOne] on the document with the given [_id]: the update is applied
    exactly when the document exists and satisfies the filter. *)
Definition updateOne (id : ObjectId) (filter : Event → bool)
    (update : Event → Event) (s : Store) : nat * Store :=
  match s !! id with
  | Some doc => if filter doc then (1%nat, <[id := update doc]> s) else (0%nat, s)
  | None => (0%nat, s)
  end.

Definition save (id : ObjectId) (assigned : Event → Event) (s : Store)
    : bool * Store :=
  match s !! id with
  | Some doc => (true, <[id := assigned doc]> s)
  | None => (false, s)
  end.

(** A new document gets an [_id] no stored document has. *)
Definition new_id (s : Store) : ObjectId := fresh (dom s).

Definition date_le (a b : Event) : Prop := date a ≤ date b.
Global Instance date_le_dec : RelDecision date_le.
Proof. intros a b. unfold date_le. apply _. Defined.

(** [find(query).sort({date: 1})]: the matching documents, by ascending
    date. *)
Definition find_sorted (query : Event → bool) (s : Store) : list Event :=
  merge_sort date_le (filter (λ e, query e = true) (snd <$> map_to_list s)).

(** ** Running one request alone

    [run now p s] performs the handler [p] on the store [s] with no other
    request in between; every reading of the clock gives [now]. *)
Fixpoint run {R} (now : Z) (p : Prog R) (s : Store) : R * Store :=
  match p with
  | Ret r => (r, s)
  | NewDate k => run now (k now) s
  | FindById id k => run now (k (s !! id)) s
  | UpdateOne id f u k =>
      let '(n, s') := updateOne id f u s in run now (k n) s'
  | Save id a k => let '(b, s') := save id a s in run now (k b) s'
  | Insert doc k => let id := new_id s in run now (k id) (<[id := doc]> s)
  | FindByIdAndDelete id k => run now (k tt) (delete id s)
  | FindSorted q k => run now (k (find_sorted q s)) s
  end.

(** The same request made once at each of the given instants, one call
    after the other. *)
Fixpoint run_each {R} (p : Prog R) (times : list Z) (s : Store)
    : list R * Store :=
  match times with
  | [] => ([], s)
  | now :: later =>
      let '(r, s1) := run now p s in
      let '(rs, s2) := run_each p later s1 in
      (r :: rs, s2)
  end.

(** ** POST /api/rsvp/:eventId *)

Definition NotFound : Response :=
  mkResponse 404 (JMessage "Event not found").
Definition Expired : Response :=
  mkResponse 400 (JMessage "Cannot RSVP to past events").
Definition WindowNotOpen (waitTime : Z) : Response :=
  mkResponse 400 (JMessage
    ("RSVP will open in " +:+ pretty waitTime +:+
     " seconds. Please wait at least 1 minute after event creation.")).
Definition AlreadyReserved : Response :=
  mkResponse 400 (JMessage "You have already RSVP'd to this event").
Definition AtCapacity : Response :=
  mkResponse 400 (JMessage "Event is at full capacity").
Definition AtCapacityOrDuplicate : Response :=
  mkResponse 400 (JMessage
    "Could not RSVP. Event may be at capacity or you may have already RSVP'd.").
Definition Reserved (updatedEvent : option Event) : Response :=
  mkResponse 200 (JMessageEvent "Successfully RSVP'd to event" updatedEvent).
Definition ServerError : Response :=
  mkResponse 500 (JMessage "Server error").

(** [Math.ceil(ms / 1000)] for a whole number of milliseconds. *)
Definition ceil_seconds (ms : Z) : Z := - ((- ms) / 1000).

(** [event.rsvpOpenAt || new Date(event.createdAt.getTime() + 60 * 1000)] *)
Definition rsvp_open_at (event : Event) : Z :=
  default (createdAt event + 60 * 1000) (rsvpOpenAt event).

(** [attendees.some(attendee => attendee.toString() === userId.toString())] *)
Definition has_attendee (userId : ObjectId) (event : Event) : bool :=
  existsb (λ attendee, (attendee =? userId)%N) (attendees event).

(** The filter of the atomic update, besides [_id]:
    [attendees: {$ne: userId}] holds when no element of the array is
    [userId]; [$expr: {$lt: [{$size: '$attendees'}, '$capacity']}]. *)
Definition rsvp_filter (userId : ObjectId) (doc : Event) : bool :=
  negb (existsb (λ a, (a =? userId)%N) (attendees doc))
  && (Z.of_nat (length (attendees doc)) <? capacity doc).

(** [$addToSet: {attendees: userId}] appends the value unless it is there. *)
Definition addToSet (userId : ObjectId) (l : list ObjectId) : list ObjectId :=
  if existsb (λ a, (a =? userId)%N) l then l else l ++ [userId].
Definition rsvp_update (userId : ObjectId) (doc : Event) : Event :=
  set_attendees (addToSet userId (attendees doc)) doc.

(** The atomic update and what follows it. *)
Definition rsvp_commit (eventId userId : ObjectId) : Prog Response :=
  let! matchedCount :=
    UpdateOne eventId (rsvp_filter userId) (rsvp_update userId) in
  if (matchedCount =? 0)%nat then Ret AtCapacityOrDuplicate
  else
    let! updatedEvent := FindById eventId in
    Ret (Reserved updatedEvent).

(** The checks made on the document that [findById] returned. *)
Definition rsvp_checks (eventId userId : ObjectId) (event : option Event)
    : Prog Response :=
  match event with
  | None => Ret NotFound
  | Some event =>
      let! now1 := NewDate in
      if date event <? now1 then Ret Expired
      else
        let rsvpOpenAt := rsvp_open_at event in
        let! now2 := NewDate in
        if now2 <? rsvpOpenAt then
          let! now3 := NewDate in
          let waitTime := ceil_seconds (rsvpOpenAt - now3) in
          Ret (WindowNotOpen waitTime)
        else if has_attendee userId event then Ret AlreadyReserved
        else if Z.of_nat (length (attendees event)) >=? capacity event
             then Ret AtCapacity
        else rsvp_commit eventId userId
  end.

Definition rsvp_post (eventId userId : ObjectId) : Prog Response :=
  let! event := FindById eventId in
  rsvp_checks eventId userId event.

(** ** DELETE /api/rsvp/:eventId *)

Definition NotReserved : Response :=
  mkResponse 400 (JMessage "You have not RSVP'd to this event").
Definition Cancelled (updatedEvent : option Event) : Response :=
  mkResponse 200 (JMessageEvent "Successfully cancelled RSVP" updatedEvent).

(** [attendees.filter(attendee => attendee.toString() !== userId.toString())] *)
Definition without (userId : ObjectId) (l : list ObjectId) : list ObjectId :=
  filter (λ attendee, attendee ≠ userId) l.

Definition rsvp_delete (eventId userId : ObjectId) : Prog Response :=
  let! event := FindById eventId in
  match event with
  | None => Ret NotFound
  | Some event =>
      if negb (has_attendee userId event) then Ret NotReserved
      else
        let attendees' := without userId (attendees event) in
        let! saved := Save eventId (set_attendees attendees') in
        if saved : bool then
          let! updatedEvent := FindById eventId in
          Ret (Cancelled updatedEvent)
        else Ret ServerError
  end.

(** ** GET /api/rsvp/user and GET /api/rsvp/user/created *)

(** [attendees: userId] holds when the array has the value. *)
Definition rsvp_user (userId : ObjectId) : Prog Response :=
  let! now := NewDate in
  let! events :=
    FindSorted (λ doc, has_attendee userId doc && (now <=? date doc)) in
  Ret (mkResponse 200 (JEvents events)).

Definition rsvp_user_created (userId : ObjectId) : Prog Response :=
  let! events := FindSorted (λ doc, (creator doc =? userId)%N) in
  Ret (mkResponse 200 (JEvents events)).

(** ** The event routes *)

(** The fields of a create or update form.  [f_date] is [None] when the
    field is empty, and otherwise the instant [new Date(date)] denotes;
    [f_capacity] is [None] when the field is not an integer numeral, and
    otherwise the integer [parseInt(capacity)] gives.  Text that is not
    empty and denotes no instant is not covered. *)
Record EventForm := mkForm {
  f_title : string;
  f_description : string;
  f_date : option Z;
  f_location : string;
  f_capacity : option Z
}.

Section Routes.
(** The [trim()] sanitizer of the validation chains, which strips the white
    space of JavaScript's [\s] at both ends.  It belongs to the validation
    library, not to the routes, and is a parameter of them: what is proved
    of the routes holds whatever the sanitizer strips. *)
Variable trim : string → string.

(** [trim().notEmpty()] fails. *)
Definition is_blank (s : string) : bool :=
  match trim s with EmptyString => true | _ => false end.

(** The messages of [validationResult(req)], in the order of the chain. *)
Definition validate (body : EventForm) : list string :=
  (if is_blank (f_title body) then ["Title is required"] else []) ++
  (if is_blank (f_description body) then ["Description is required"] else []) ++
  (if f_date body is Some _ then [] else ["Date is required"]) ++
  (if is_blank (f_location body) then ["Location is required"] else []) ++
  (match f_capacity body with
   | Some c => if 1 <=? c then [] else ["Capacity must be at least 1"]
   | None => ["Capacity must be at least 1"]
   end).

(** [errors.isEmpty()] *)
Definition isEmpty (errors : list string) : bool :=
  match errors with [] => true | _ => false end.

Definition ValidationFailed (errors : list string) : Response :=
  mkResponse 400 (JErrors errors).
Definition Forbidden (message : string) : Response :=
  mkResponse 403 (JMessage message).
Definition CapacityBelowAttendance (count : nat) : Response :=
  mkResponse 400 (JMessage
    ("Capacity cannot be less than current attendees (" +:+ pretty count +:+ ")")).

(** POST /api/events.  The uploaded file is known by its name only; its
    removal from disk on failure is not part of the model. *)
Definition events_post (user : ObjectId) (body : EventForm)
    (file : option string) : Prog Response :=
  let errors := validate body in
  if negb (isEmpty errors) then Ret (ValidationFailed errors)
  else
    match f_date body, f_capacity body with
    | Some date, Some capacity =>
        let image :=
          match file with
          | Some filename => "/uploads/" +:+ filename
          | None => ""
          end in
        let! now := NewDate in
        let rsvpOpenAt := now + 60 * 1000 in
        (* the schema stamps [createdAt] when the document is built *)
        let! createdAt := NewDate in
        let event :=
          mkEvent (trim (f_title body)) (trim (f_description body)) date
                  (trim (f_location body)) capacity [] user createdAt
                  (Some rsvpOpenAt) image in
        let! _id := Insert event in
        Ret (mkResponse 201 (JEvent event))
    | _, _ => Ret ServerError (* excluded by the validation above *)
    end.

(** PUT /api/events/:id *)
Definition events_put (id user : ObjectId) (body : EventForm)
    (file : option string) : Prog Response :=
  let errors := validate body in
  if negb (isEmpty errors) then Ret (ValidationFailed errors)
  else
    match f_date body, f_capacity body with
    | Some date, Some capacity =>
        let! event := FindById id in
        match event with
        | None => Ret NotFound
        | Some event =>
            if negb (creator event =? user)%N
            then Ret (Forbidden "Not authorized to update this event")
            else if capacity <? Z.of_nat (length (attendees event))
            then Ret (CapacityBelowAttendance (length (attendees event)))
            else
              let assigned (doc : Event) : Event :=
                let doc :=
                  match file with
                  | Some filename =>
                      if bool_decide (image event = "") then doc
                      else set_image ("/uploads/" +:+ filename) doc
                  | None => doc
                  end in
                set_capacity capacity
                  (set_location (trim (f_location body))
                    (set_date date
                      (set_description (trim (f_description body))
                        (set_title (trim (f_title body)) doc)))) in
              let! saved := Save id assigned in
              if saved : bool then Ret (mkResponse 200 (JEvent (assigned event)))
              else Ret ServerError
        end
    | _, _ => Ret ServerError (* excluded by the validation above *)
    end.

(** GET /api/events/:id *)
Definition events_get_one (id : ObjectId) : Prog Response :=
  let! event := FindById id in
  match event with
  | None => Ret NotFound
  | Some event => Ret (mkResponse 200 (JEvent event))
  end.

(** DELETE /api/events/:id *)
Definition events_delete (id user : ObjectId) : Prog Response :=
  let! event := FindById id in
  match event with
  | None => Ret NotFound
  | Some event =>
      if negb (creator event =? user)%N
      then Ret (Forbidden "Not authorized to delete this event")
      else
        let! _ := FindByIdAndDelete id in
        Ret (mkResponse 200 (JMessage "Event deleted successfully"))
  end.

(** GET /api/events.  The query object has the keys [date] and, when a
    search is given, [title]. *)
Record EventQuery := mkQuery {
  q_date : Z;                        (* date: {$gte: q_date} *)
  q_title : option (string * string) (* title: {$regex: _, $options: _} *)
}.

Section Listing.
(** The store's regular expression engine: a pattern with its options is
    compiled to a test on subjects, or is not a regular expression, in
    which case the query fails. *)
Variable regex : string → string → option (string → bool).

(** The test a query makes on a document; [None] when the query fails. *)
Definition compile (query : EventQuery) : option (Event → bool) :=
  match q_title query with
  | Some (pattern, options) =>
      match regex pattern options with
      | Some test =>
          Some (λ doc, (q_date query <=? date doc) && test (title doc))
      | None => None
      end
  | None => Some (λ doc, q_date query <=? date doc)
  end.

(** [search] and [date] are the query parameters; [date] is given as the
    instant [new Date(date)] denotes.  A failing query is caught and
    answered 500. *)
Definition events_get (search : option string) (date : option Z)
    : Prog Response :=
  let! now := NewDate in
  let query := mkQuery now None in (* only upcoming events *)
  let query :=
    match search with
    | Some (String c rest) =>
        mkQuery (q_date query) (Some (String c rest, "i"))
    | _ => query
    end in
  let query :=
    match date with
    | Some dateFilter => mkQuery dateFilter (q_title query)
    | None => query
    end in
  match compile query with
  | Some matches =>
      let! events := FindSorted matches in
      Ret (mkResponse 200 (JEvents events))
  | None => Ret ServerError
  end.

(** ** Requests *)
Inductive Request :=
  | PostRsvp (eventId userId : ObjectId)
  | DeleteRsvp (eventId userId : ObjectId)
  | GetRsvpUser (userId : ObjectId)
  | GetRsvpUserCreated (userId : ObjectId)
  | GetEvents (search : option string) (date : option Z)
  | GetEvent (id : ObjectId)
  | PostEvent (user : ObjectId) (body : EventForm) (file : option string)
  | PutEvent (id user : ObjectId) (body : EventForm) (file : option string)
  | DeleteEvent (id user : ObjectId).

Definition handle (req : Request) : Prog Response :=
  match req with
  | PostRsvp eventId userId => rsvp_post eventId userId
  | DeleteRsvp eventId userId => rsvp_delete eventId userId
  | GetRsvpUser userId => rsvp_user userId
  | GetRsvpUserCreated userId => rsvp_user_created userId
  | GetEvents search date => events_get search date
  | GetEvent id => events_get_one id
  | PostEvent user body file => events_post user body file
  | PutEvent id user body file => events_put id user body file
  | DeleteEvent id user => events_delete id user
  end.
End Listing.
End Routes.

(** ** Interleaved requests

    One step of a handler is one access to the store or one reading of the
    clock; the clock may show any instant. *)
Inductive thread_step {R} : Prog R → Store → Prog R → Store → Prop :=
  | ts_date k t s : thread_step (NewDate k) s (k t) s
  | ts_find id k s : thread_step (FindById id k) s (k (s !! id)) s
  | ts_update id f u k s :
      thread_step (UpdateOne id f u k) s
                  (k (updateOne id f u s).1) (updateOne id f u s).2
  | ts_save id a k s :
      thread_step (Save id a k) s (k (save id a s).1) (save id a s).2
  | ts_insert doc k s id :
      s !! id = None →
      thread_step (Insert doc k) s (k id) (<[id := doc]> s)
  | ts_delete id k s :
      thread_step (FindByIdAndDelete id k) s (k tt) (delete id s)
  | ts_list q k s :
      thread_step (FindSorted q k) s (k (find_sorted q s)) s.

(** The steps of one handler, on pairs of what remains of it and the
    store. *)
Definition handler_steps {R} : relation (Prog R * Store) :=
  rtc (λ before after, thread_step before.1 before.2 after.1 after.2).

(** A configuration: the store and the handlers in flight (a finished one
    is a [Ret]). *)
Record Config := mkConfig {
  store : gmap N Event;
  pool : list (Prog Response)
}.

(** Either a request of the kind [accepted] arrives, or one handler in
    flight takes a step. *)
Inductive step (accepted : Prog Response → Prop) : Config → Config → Prop :=
  | step_arrive p s ps :
      accepted p → step accepted (mkConfig s ps) (mkConfig s (ps ++ [p]))
  | step_run i p p' s s' ps :
      ps !! i = Some p →
      thread_step p s p' s' →
      step accepted (mkConfig s ps) (mkConfig s' (<[i := p']> ps)).

Definition reachable (accepted : Prog Response → Prop) (s0 : Store)
    (c : Config) : Prop :=
  rtc (step accepted) (mkConfig s0 []) c.

(** ** What the invariants are stated with *)

(** [P] holds of every stored event. *)
Definition every_event (P : Event → Prop) (s : gmap N Event) : Prop :=
  ∀ id doc, s !! id = Some doc → P doc.

(** A handler respects [P] when each of its writes keeps [P], given that
    the documents it has read satisfied [P]. *)
Inductive respects (P : Event → Prop) {R} : Prog R → Prop :=
  | respects_Ret r : respects P (Ret r)
  | respects_NewDate k :
      (∀ t, respects P (k t)) → respects P (NewDate k)
  | respects_FindById id k :
      (∀ found, (∀ doc, found = Some doc → P doc) → respects P (k found)) →
      respects P (FindById id k)
  | respects_UpdateOne id f u k :
      (∀ doc, P doc → f doc = true → P (u doc)) →
      (∀ n, respects P (k n)) →
      respects P (UpdateOne id f u k)
  | respects_Save id a k :
      (∀ doc, P doc → P (a doc)) →
      (∀ b, respects P (k b)) →
      respects P (Save id a k)
  | respects_Insert doc k :
      P doc → (∀ id, respects P (k id)) → respects P (Insert doc k)
  | respects_FindByIdAndDelete id k :
      (∀ u, respects P (k u)) → respects P (FindByIdAndDelete id k)
  | respects_FindSorted q k :
      (∀ l, respects P (k l)) → respects P (FindSorted q k).

Definition within_capacity (doc : Event) : Prop :=
  Z.of_nat (length (attendees doc)) ≤ capacity doc.

Definition is_rsvp_post (p : Prog Response) : Prop :=
  ∃ eventId userId, p = rsvp_post eventId userId.

Definition no_duplicate (doc : Event) : Prop := NoDup (attendees doc).

Definition is_request (trim : string → string)
    (regex : string → string → option (string → bool))
    (p : Prog Response) : Prop :=
  ∃ req, p = handle trim regex req.

(** ** A sanitizer for the examples

    [trim()] on text in UTF-8.  The white space of JavaScript's [\s] is the
    six ASCII blanks and U+00A0, U+1680, U+2000 to U+200A, U+2028, U+2029,
    U+202F, U+205F, U+3000 and U+FEFF, of two or three bytes each. *)
Definition space1 (b : ascii) : bool :=
  let n := nat_of_ascii b in
  ((9 <=? n) && (n <=? 13))%nat || (n =? 32)%nat.

Definition space2 (b1 b2 : ascii) : bool :=
  ((nat_of_ascii b1 =? 194) && (nat_of_ascii b2 =? 160))%nat.

Definition space3 (b1 b2 b3 : ascii) : bool :=
  let n1 := nat_of_ascii b1 in
  let n2 := nat_of_ascii b2 in
  let n3 := nat_of_ascii b3 in
  ((n1 =? 225) && (n2 =? 154) && (n3 =? 128)
   || (n1 =? 226) && (n2 =? 128)
      && ((128 <=? n3) && (n3 <=? 138) || (n3 =? 168) || (n3 =? 169)
          || (n3 =? 175))
   || (n1 =? 226) && (n2 =? 129) && (n3 =? 159)
   || (n1 =? 227) && (n2 =? 128) && (n3 =? 128)
   || (n1 =? 239) && (n2 =? 187) && (n3 =? 191))%nat.

(** Strips the white space at the start; with [backwards] the text is read
    from its end, so the bytes of a character come last byte first. *)
Fixpoint strip_spaces (backwards : bool) (s : string) : string :=
  match s with
  | String b1 s1 =>
      if space1 b1 then strip_spaces backwards s1
      else
        match s1 with
        | String b2 s2 =>
            if (if backwards then space2 b2 b1 else space2 b1 b2)
            then strip_spaces backwards s2
            else
              match s2 with
              | String b3 s3 =>
                  if (if backwards then space3 b3 b2 b1 else space3 b1 b2 b3)
                  then strip_spaces backwards s3
                  else s
              | EmptyString => s
              end
        | EmptyString => s
        end
  | EmptyString => s
  end.

Definition js_trim (s : string) : string :=
  String.rev (strip_spaces true (String.rev (strip_spaces false s))).

(** ** A regular expression engine for the examples *)

(** A regular expression engine for the patterns in which [.] is the only
    metacharacter: every other character stands for itself, up to case
    when the options contain [i], and [.] stands for any character but a
    line feed.  A pattern matches a subject when it matches somewhere in
    it.  Used to run the listing on concrete searches. *)
Definition lower (c : ascii) : ascii :=
  let n := nat_of_ascii c in
  if (65 <=? n)%nat && (n <=? 90)%nat then ascii_of_nat (n + 32) else c.

Definition char_eq (fold_case : bool) (a b : ascii) : bool :=
  if fold_case then bool_decide (lower a = lower b) else bool_decide (a = b).

Definition pattern_char (fold_case : bool) (p c : ascii) : bool :=
  if bool_decide (p = "."%char) then negb (bool_decide (c = "010"%char))
  else char_eq fold_case p c.

Fixpoint match_here (step : ascii → ascii → bool) (pattern subject : string)
    : bool :=
  match pattern, subject with
  | EmptyString, _ => true
  | String _ _, EmptyString => false
  | String p pattern', String c subject' =>
      step p c && match_here step pattern' subject'
  end.

Fixpoint match_anywhere (step : ascii → ascii → bool)
    (pattern subject : string) : bool :=
  match_here step pattern subject
  || match subject with
     | EmptyString => false
     | String _ subject' => match_anywhere step pattern subject'
     end.

Fixpoint has_char (c : ascii) (s : string) : bool :=
  match s with
  | EmptyString => false
  | String c' s' => bool_decide (c = c') || has_char c s'
  end.

Definition dot_regex (pattern options : string) : option (string → bool) :=
  Some (match_anywhere (pattern_char (has_char "i"%char options)) pattern).

(** [needle] occurs in [hay] as a substring, up to case. *)
Definition contains_ci (needle hay : string) : bool :=
  match_anywhere (char_eq true) needle hay.

(** ** Scenarios *)

(** An event created at 0 with no stored [rsvpOpenAt]: it opens at 60 s. *)
Definition gate_event : Event :=
  mkEvent "Launch" "Party" 3600000 "Hall" 2 [] 7%N 0 None "".

(** An event held at 99 s that is full, has user 5 among its attendees and
    would open at 200 s. *)
Definition past_event : Event :=
  mkEvent "Launch" "Party" 99000 "Hall" 1 [5%N] 7%N 0 (Some 200000) "".

(** An event with one seat, as read while the seat is free and as stored
    once user 6 has taken it. *)
Definition last_seat_read : Event :=
  mkEvent "Launch" "Party" 3600000 "Hall" 1 [] 7%N 0 (Some 60000) "".
Definition last_seat_taken : Event :=
  mkEvent "Launch" "Party" 3600000 "Hall" 1 [6%N] 7%N 0 (Some 60000) "".

(** An event that took place at 99 s, with three attendees. *)
Definition held_event : Event :=
  mkEvent "Launch" "Party" 99000 "Hall" 3 [4%N; 5%N; 6%N] 7%N 0 (Some 60000)
          "/uploads/a.png".

(** An event of capacity 2 created at 0, open from 60 s, held at 3600 s. *)
Definition launch : Event :=
  mkEvent "Launch" "Party" 3600000 "Hall" 2 [] 7%N 0 (Some 60000) "".
Definition launch_joined : Event :=
  mkEvent "Launch" "Party" 3600000 "Hall" 2 [5%N] 7%N 0 (Some 60000) "".

(** An event with two attendees, and the form its creator, user 7, sends
    to change its capacity. *)
Definition two_attendees : Event :=
  mkEvent "Launch" "Party" 3600000 "Hall" 5 [4%N; 5%N] 7%N 0 (Some 60000) "".
Definition form_capacity (capacity : Z) : EventForm :=
  mkForm "Launch" "Party" (Some 3600000) "Hall" (Some capacity).

(** Two callers race for the last seat: both read the event while it has
    room and pass the checks; the first write takes the seat and the second
    matches nothing. *)
Definition last_seat_race : Config :=
  mkConfig {[ 1%N := set_attendees [5%N] last_seat_read ]}
           [ FindById 1%N (λ updatedEvent, Ret (Reserved updatedEvent));
             Ret AtCapacityOrDuplicate ].

(** An event held at 1000 and one to be held at 9000. *)
Definition reunion : Event :=
  mkEvent "abc" "Class reunion" 1000 "Hall" 10 [] 7%N 0 (Some 60) "".
Definition concert : Event :=
  mkEvent "Concert" "Open air" 9000 "Park" 10 [] 7%N 0 (Some 60) "".

(** The event is created, a user joins it, and the same user asks to join
    again and is turned away. *)
Definition joined_twice : Config :=
  mkConfig {[ 1%N := set_attendees [5%N] launch ]}
           [ Ret (mkResponse 201 (JEvent launch));
             FindById 1%N (λ updatedEvent, Ret (Reserved updatedEvent));
             Ret AlreadyReserved ].

(** Building a run of the interleaved semantics step by step. *)
Ltac arrive p :=
  eapply rtc_l; [apply (step_arrive _ p); by eexists _, _|]; simpl app.
Ltac thread_reads i :=
  eapply rtc_l; [eapply (step_run _ i); [reflexivity|apply ts_find]|].
Ltac thread_clock i t :=
  eapply rtc_l; [eapply (step_run _ i); [reflexivity|apply (ts_date _ t)]|].
Ltac thread_updates i :=
  eapply rtc_l; [eapply (step_run _ i); [reflexivity|apply ts_update]|].
Ltac request trim regex req :=
  eapply rtc_l;
    [apply (step_arrive _ (handle trim regex req)); by exists req|]; simpl app.
Ltac thread_inserts i id :=
  eapply rtc_l;
    [eapply (step_run _ i); [reflexivity|apply (ts_insert _ _ _ id); reflexivity]|].

(** ** Requests one after the other *)

(** Each request is handled alone, at its own instant, on the store the
    previous one left. *)
Fixpoint run_requests (trim : string → string)
    (regex : string → string → option (string → bool))
    (requests : list (Z * Request)) (s : Store) : list Response * Store :=
  match requests with
  | [] => ([], s)
  | (now, req) :: later =>
      let '(r, s1) := run now (handle trim regex req) s in
      let '(rs, s2) := run_requests trim regex later s1 in
      (r :: rs, s2)
  end.

(** ** What a handler leaves as it is *)

(** A handler keeps [Q] when each of its writes to a stored document
    relates the document before to the document after by [Q]. *)
Inductive keeps (Q : Event → Event → Prop) {R} : Prog R → Prop :=
  | keeps_Ret r : keeps Q (Ret r)
  | keeps_NewDate k : (∀ t, keeps Q (k t)) → keeps Q (NewDate k)
  | keeps_FindById id k :
      (∀ found, keeps Q (k found)) → keeps Q (FindById id k)
  | keeps_UpdateOne id f u k :
      (∀ doc, f doc = true → Q doc (u doc)) →
      (∀ n, keeps Q (k n)) →
      keeps Q (UpdateOne id f u k)
  | keeps_Save id a k :
      (∀ doc, Q doc (a doc)) → (∀ b, keeps Q (k b)) → keeps Q (Save id a k)
  | keeps_Insert doc k : (∀ id, keeps Q (k id)) → keeps Q (Insert doc k)
  | keeps_FindByIdAndDelete id k :
      (∀ u, keeps Q (k u)) → keeps Q (FindByIdAndDelete id k)
  | keeps_FindSorted q k :
      (∀ l, keeps Q (k l)) → keeps Q (FindSorted q k).

(** The fields no route assigns. *)
Definition same_origin (before after : Event) : Prop :=
  creator after = creator before ∧
  createdAt after = createdAt before ∧
  rsvpOpenAt after = rsvpOpenAt before.

(** All the fields but [attendees]. *)
Definition same_but_attendees (before after : Event) : Prop :=
  after = set_attendees (attendees after) before.

Definition is_rsvp_request (p : Prog Response) : Prop :=
  ∃ eventId userId,
    p = rsvp_post eventId userId ∨ p = rsvp_delete eventId userId.

Definition capacity_positive (doc : Event) : Prop := 1 ≤ capacity doc.

(** A handler that neither inserts nor deletes a document. *)
Inductive updates_only {R} : Prog R → Prop :=
  | updates_only_Ret r : updates_only (Ret r)
  | updates_only_NewDate k :
      (∀ t, updates_only (k t)) → updates_only (NewDate k)
  | updates_only_FindById id k :
      (∀ found, updates_only (k found)) → updates_only (FindById id k)
  | updates_only_UpdateOne id f u k :
      (∀ n, updates_only (k n)) → updates_only (UpdateOne id f u k)
  | updates_only_Save id a k :
      (∀ b, updates_only (k b)) → updates_only (Save id a k)
  | updates_only_FindSorted q k :
      (∀ l, updates_only (k l)) → updates_only (FindSorted q k).

(** ** The event page of the client ([client/src/pages/EventDetails.js])

    What the page offers under the event, once the event is loaded. *)
Inductive Actions :=
  (** Edit Event, Delete Event *)
  | CreatorActions
  (** the button that cancels the RSVP *)
  | DisconnectButton (label : string) (disabled : bool)
  (** the button that RSVPs *)
  | JoinButton (label : string) (disabled : bool)
  (** the disabled button [RSVP Opens in {waitTime}s] *)
  | OpensIn (waitTime : Z)
  (** This event has passed *)
  | PastEvent.

(** [user] is the logged-in user, if any; [rsvpLoading] is the state set
    while a request of the page is in flight.  The event is the one the
    server sent, so its [createdAt] is present and the page's fallback to
    [Date.now()] for a missing one is not taken. *)
Definition event_actions (user : option ObjectId) (event : Event)
    (rsvpLoading : bool) : Prog Actions :=
  let isCreator :=
    match user with
    | Some id => (creator event =? id)%N
    | None => false
    end in
  let hasRSVPd :=
    match user with
    | Some id => existsb (λ attendee, (attendee =? id)%N) (attendees event)
    | None => false
    end in
  let isFull := Z.of_nat (length (attendees event)) >=? capacity event in
  let! now1 := NewDate in
  let isPast := date event <? now1 in
  let rsvpOpenAt :=
    match rsvpOpenAt event with
    | Some stored => stored
    | None => createdAt event + 60 * 1000
    end in
  let! now2 := NewDate in
  let canRSVP := now2 >=? rsvpOpenAt in
  let finish (waitTime : Z) : Prog Actions :=
    if isCreator then Ret CreatorActions
    else if negb isPast then
      if hasRSVPd then
        Ret (DisconnectButton
               (if rsvpLoading then "Disconnecting..." else "Disconnect from Event")
               rsvpLoading)
      else if canRSVP then
        Ret (JoinButton
               (if rsvpLoading then "Joining..."
                else if isFull then "Event Full" else "Join Event")
               (rsvpLoading || isFull))
      else Ret (OpensIn waitTime)
    else Ret PastEvent in
  if canRSVP then finish 0
  else
    let! now3 := NewDate in
    finish (ceil_seconds (rsvpOpenAt - now3)).

(** The page at the instant [now]. *)
Definition event_page (now : Z) (user : option ObjectId) (event : Event)
    (rsvpLoading : bool) : Actions :=
  (run now (event_actions user event rsvpLoading) ∅).1.

(** * Properties *)

(** ** Basic facts *)

Lemma existsb_eqb_elem_of (userId : ObjectId) (l : list ObjectId) :
  existsb (λ a, (a =? userId)%N) l = true ↔ userId ∈ l.
Proof.
  induction l as [|a l IH]; simpl.
  - split; [discriminate | by intros ?%elem_of_nil].
  - rewrite orb_true_iff, IH, elem_of_cons, N.eqb_eq.
    split; intros [->|?]; auto.
Qed.

Lemma has_attendee_true userId event :
  has_attendee userId event = true ↔ userId ∈ attendees event.
Proof. apply existsb_eqb_elem_of. Qed.

Lemma has_attendee_false userId event :
  has_attendee userId event = false ↔ userId ∉ attendees event.
Proof.
  rewrite <-has_attendee_true.
  destruct (has_attendee userId event); split; congruence.
Qed.

Lemma rsvp_filter_true userId doc :
  rsvp_filter userId doc = true ↔
  (userId ∉ attendees doc) ∧ Z.of_nat (length (attendees doc)) < capacity doc.
Proof.
  unfold rsvp_filter.
  rewrite andb_true_iff, negb_true_iff, Z.ltb_lt.
  by rewrite <-has_attendee_false.
Qed.

Lemma addToSet_absent userId l : userId ∉ l → addToSet userId l = l ++ [userId].
Proof.
  intros H. unfold addToSet.
  destruct (existsb _ l) eqn:E; [|done].
  by apply existsb_eqb_elem_of in E.
Qed.

Lemma addToSet_present userId l : userId ∈ l → addToSet userId l = l.
Proof.
  intros H. unfold addToSet.
  by apply existsb_eqb_elem_of in H as ->.
Qed.

(** [ceil_seconds] is the ceiling of the quotient by 1000. *)
Lemma ceil_seconds_spec ms :
  1000 * (ceil_seconds ms - 1) < ms ≤ 1000 * ceil_seconds ms.
Proof.
  unfold ceil_seconds.
  pose proof (Z.div_mod (- ms) 1000 ltac:(lia)).
  pose proof (Z.mod_pos_bound (- ms) 1000 ltac:(lia)).
  lia.
Qed.

(** The outcomes of the reservation route are told apart by status or by
    the first letter of the message. *)
Lemma WindowNotOpen_message waitTime :
  ∃ rest, WindowNotOpen waitTime = mkResponse 400 (JMessage (String "R"%char rest)).
Proof. by eexists. Qed.

Ltac window_neq :=
  let rest := fresh "rest" in
  let E := fresh "E" in
  match goal with
  | |- context [WindowNotOpen ?w] =>
      destruct (WindowNotOpen_message w) as [rest E]; rewrite E; discriminate
  | H : context [WindowNotOpen ?w] |- _ =>
      destruct (WindowNotOpen_message w) as [rest E]; rewrite E in H; discriminate
  end.

(** The five precondition outcomes are pairwise distinct responses. *)
Lemma precondition_outcomes_distinct waitTime :
  NoDup [NotFound; Expired; WindowNotOpen waitTime; AlreadyReserved; AtCapacity].
Proof.
  destruct (WindowNotOpen_message waitTime) as [rest ->].
  repeat (apply NoDup_cons; split;
          [rewrite ?elem_of_cons, elem_of_nil; intros H;
           repeat destruct H as [H|H]; discriminate || done|]).
  apply NoDup_nil_2.
Qed.

(** ** The reservation route, one request alone *)

(** What the checks do with the document that was read, case by case, in
    the order of the source; [s] is the store the atomic update will meet. *)
Lemma run_rsvp_checks now eventId userId event (s : gmap N Event) :
  run now (rsvp_checks eventId userId (Some event)) s =
    if date event <? now then (Expired, s)
    else if now <? rsvp_open_at event
    then (WindowNotOpen (ceil_seconds (rsvp_open_at event - now)), s)
    else if has_attendee userId event then (AlreadyReserved, s)
    else if Z.of_nat (length (attendees event)) >=? capacity event
    then (AtCapacity, s)
    else run now (rsvp_commit eventId userId) s.
Proof.
  unfold rsvp_checks. cbn [run].
  destruct (date event <? now); [reflexivity|]. cbn [run].
  destruct (now <? rsvp_open_at event); [reflexivity|].
  destruct (has_attendee userId event); [reflexivity|].
  destruct (Z.of_nat (length (attendees event)) >=? capacity event);
    reflexivity.
Qed.

Lemma run_rsvp_post_cases now eventId userId (s : gmap N Event) event :
  s !! eventId = Some event →
  run now (rsvp_post eventId userId) s =
    if date event <? now then (Expired, s)
    else if now <? rsvp_open_at event
    then (WindowNotOpen (ceil_seconds (rsvp_open_at event - now)), s)
    else if has_attendee userId event then (AlreadyReserved, s)
    else if Z.of_nat (length (attendees event)) >=? capacity event
    then (AtCapacity, s)
    else run now (rsvp_commit eventId userId) s.
Proof.
  intros Hs. rewrite <-run_rsvp_checks.
  unfold rsvp_post. cbn [run]. by rewrite Hs.
Qed.

(** The atomic update on the store it meets. *)
Lemma run_rsvp_commit now eventId userId (s : gmap N Event) :
  run now (rsvp_commit eventId userId) s =
    match s !! eventId with
    | Some doc =>
        if rsvp_filter userId doc
        then (Reserved (Some (rsvp_update userId doc)),
              <[eventId := rsvp_update userId doc]> s)
        else (AtCapacityOrDuplicate, s)
    | None => (AtCapacityOrDuplicate, s)
    end.
Proof.
  simpl. unfold updateOne.
  destruct (s !! eventId) as [doc|] eqn:Hs; [|done].
  destruct (rsvp_filter userId doc); [|done].
  simpl. by rewrite lookup_insert_eq.
Qed.

(** C4.  [rsvp_post] checks its preconditions in the order NotFound,
    Expired, WindowNotOpen, AlreadyReserved, AtCapacity: each outcome is
    returned exactly under the failure of its own check and the success of
    the earlier ones, leaves the store as it was, and the five outcomes are
    pairwise distinct.  In particular an event whose date is before [now]
    is rejected as Expired whatever its [rsvpOpenAt], attendees and
    capacity are. *)
Theorem rsvp_post_precondition_order now eventId userId (s : gmap N Event) :
  (s !! eventId = None →
     run now (rsvp_post eventId userId) s = (NotFound, s)) ∧
  (∀ event, s !! eventId = Some event →
     (date event < now →
        run now (rsvp_post eventId userId) s = (Expired, s)) ∧
     (now ≤ date event → now < rsvp_open_at event →
        run now (rsvp_post eventId userId) s =
          (WindowNotOpen (ceil_seconds (rsvp_open_at event - now)), s)) ∧
     (now ≤ date event → rsvp_open_at event ≤ now →
      userId ∈ attendees event →
        run now (rsvp_post eventId userId) s = (AlreadyReserved, s)) ∧
     (now ≤ date event → rsvp_open_at event ≤ now →
      userId ∉ attendees event →
      capacity event ≤ Z.of_nat (length (attendees event)) →
        run now (rsvp_post eventId userId) s = (AtCapacity, s))) ∧
  (∀ waitTime,
     NoDup [NotFound; Expired; WindowNotOpen waitTime; AlreadyReserved;
            AtCapacity]).
Proof.
  split; [|split].
  - intros Hs. simpl. by rewrite Hs.
  - intros event Hs. rewrite (run_rsvp_post_cases _ _ _ _ _ Hs).
    repeat split.
    + intros ?%Z.ltb_lt. by rewrite H.
    + intros H1%Z.ltb_ge H2%Z.ltb_lt. by rewrite H1, H2.
    + intros H1%Z.ltb_ge H2%Z.ltb_ge H3%has_attendee_true.
      by rewrite H1, H2, H3.
    + intros H1%Z.ltb_ge H2%Z.ltb_ge H3%has_attendee_false H4.
      rewrite H1, H2, H3.
      by replace (_ >=? _) with true by (symmetry; apply Z.geb_le; lia).
  - apply precondition_outcomes_distinct.
Qed.

(** The message of [WindowNotOpen] determines the number of seconds. *)
Lemma string_chars_append (a b : string) :
  Stdlib.Strings.String.list_ascii_of_string (a +:+ b) =
  Stdlib.Strings.String.list_ascii_of_string a
  ++ Stdlib.Strings.String.list_ascii_of_string b.
Proof. induction a as [|c a IH]; simpl; [done|]. by rewrite IH. Qed.

Lemma append_inv_tail (a b c : string) : a +:+ c = b +:+ c → a = b.
Proof.
  intros H.
  apply (f_equal Stdlib.Strings.String.list_ascii_of_string) in H.
  rewrite !string_chars_append in H. apply app_inv_tail in H.
  apply (f_equal Stdlib.Strings.String.string_of_list_ascii) in H.
  by rewrite !Stdlib.Strings.String.string_of_list_ascii_of_string in H.
Qed.

Lemma WindowNotOpen_inj w1 w2 : WindowNotOpen w1 = WindowNotOpen w2 → w1 = w2.
Proof.
  unfold WindowNotOpen. intros [= H].
  apply (inj (String.append _)) in H.
  apply append_inv_tail in H.
  by apply (inj pretty) in H.
Qed.

(** C5.  For an event that exists and is not past at [now], [rsvp_post] is
    rejected with WindowNotOpen exactly when [now < rsvpOpenAt], where
    [rsvpOpenAt] is the stored field or, when that is unset,
    [createdAt + 60 s]; the number of seconds reported is the ceiling of
    [(rsvpOpenAt - now) / 1000], and the store is left as it was.  A call
    at exactly [rsvpOpenAt] is therefore not rejected by the time gate, and
    one a millisecond earlier is. *)
Theorem rsvp_post_time_gate now eventId userId (s : gmap N Event) event :
  s !! eventId = Some event →
  now ≤ date event →
  let openAt :=
    match rsvpOpenAt event with
    | Some stored => stored
    | None => createdAt event + 60 * 1000
    end in
  (∀ waitTime,
     (run now (rsvp_post eventId userId) s).1 = WindowNotOpen waitTime ↔
     now < openAt ∧ waitTime = ceil_seconds (openAt - now)) ∧
  (now < openAt →
     run now (rsvp_post eventId userId) s =
       (WindowNotOpen (ceil_seconds (openAt - now)), s) ∧
     1000 * (ceil_seconds (openAt - now) - 1) < openAt - now
       ≤ 1000 * ceil_seconds (openAt - now)) ∧
  (now = openAt →
     ∀ waitTime,
       (run now (rsvp_post eventId userId) s).1 ≠ WindowNotOpen waitTime) ∧
  (now = openAt - 1 →
     run now (rsvp_post eventId userId) s = (WindowNotOpen 1, s)).
Proof.
  intros Hs Hdate openAt.
  assert (HopenAt : rsvp_open_at event = openAt).
  { unfold rsvp_open_at, openAt. by destruct (rsvpOpenAt event). }
  assert (Hgate : ∀ waitTime,
     (run now (rsvp_post eventId userId) s).1 = WindowNotOpen waitTime ↔
     now < openAt ∧ waitTime = ceil_seconds (openAt - now)).
  { intros waitTime.
    rewrite (run_rsvp_post_cases _ _ _ _ _ Hs), HopenAt.
    replace (date event <? now) with false by (symmetry; apply Z.ltb_ge; lia).
    destruct (Z.ltb_spec now openAt) as [Hlt|Hge].
    - simpl. split.
      + intros H%WindowNotOpen_inj. by split.
      + by intros [_ ->].
    - split; [|lia]. intros H. exfalso.
      destruct (has_attendee userId event); [simpl in H; window_neq|].
      destruct (_ >=? _); [simpl in H; window_neq|].
      rewrite run_rsvp_commit, Hs in H.
      destruct (rsvp_filter userId event); simpl in H; window_neq. }
  assert (Hrun : now < openAt →
     run now (rsvp_post eventId userId) s =
       (WindowNotOpen (ceil_seconds (openAt - now)), s)).
  { intros Hlt. rewrite (run_rsvp_post_cases _ _ _ _ _ Hs), HopenAt.
    replace (date event <? now) with false by (symmetry; apply Z.ltb_ge; lia).
    by replace (now <? openAt) with true by (symmetry; apply Z.ltb_lt; lia). }
  split; [exact Hgate|].
  split; [intros Hlt; split; [by apply Hrun | apply ceil_seconds_spec]|].
  split.
  - intros -> waitTime [Hlt _]%Hgate. lia.
  - intros Hnow. rewrite Hrun by lia.
    by replace (openAt - now) with 1 by lia.
Qed.

(** The event that opens at 60 s, asked a millisecond before and at 60 s
    exactly. *)
Lemma rsvp_post_time_gate_witness :
  run 59999 (rsvp_post 1%N 5%N) {[ 1%N := gate_event ]} =
    (WindowNotOpen 1, {[ 1%N := gate_event ]}) ∧
  (∀ waitTime,
     (run 60000 (rsvp_post 1%N 5%N) {[ 1%N := gate_event ]}).1
       ≠ WindowNotOpen waitTime).
Proof.
  split.
  - apply (rsvp_post_time_gate 59999 1%N 5%N {[ 1%N := gate_event ]} gate_event);
      [reflexivity | simpl; lia | reflexivity].
  - apply (rsvp_post_time_gate 60000 1%N 5%N {[ 1%N := gate_event ]} gate_event);
      [reflexivity | simpl; lia | reflexivity].
Defined.

(** An event held one second before the call is rejected as Expired even
    though it is full, the caller is among its attendees and its window has
    not opened. *)
Lemma rsvp_post_precondition_order_witness :
  run 100000 (rsvp_post 1%N 5%N) {[ 1%N := past_event ]} =
    (Expired, {[ 1%N := past_event ]}).
Proof.
  destruct (rsvp_post_precondition_order 100000 1%N 5%N {[ 1%N := past_event ]})
    as (_ & Horder & _).
  destruct (Horder past_event) as (Hexpired & _); [reflexivity|].
  apply Hexpired. simpl. lia.
Defined.

(** ** The atomic commit *)

(** In the interleaved semantics the commit is one step: the update is
    decided and applied on the store that step meets. *)
Lemma rsvp_commit_thread_step eventId userId (s s' : gmap N Event) p' :
  thread_step (rsvp_commit eventId userId) s p' s' →
  s' = (updateOne eventId (rsvp_filter userId) (rsvp_update userId) s).2.
Proof. unfold rsvp_commit. by inversion 1. Qed.

(** C3.  Once the checks on the document read by [findById] have passed,
    the outcome is decided by one conditional write on the store [s] that
    the write meets (which other requests may have changed since the read):
    it succeeds exactly when the event is there with [userId] not among
    its attendees and fewer attendees than its capacity, and then stores
    and returns the event with [userId] appended to its attendees and
    every other field as it was; otherwise nothing is written and the
    response is the merged rejection, of status 400, which is neither the
    success nor one of the specific rejections. *)
Theorem rsvp_commit_conditional now eventId userId snapshot (s : gmap N Event) :
  now ≤ date snapshot →
  rsvp_open_at snapshot ≤ now →
  userId ∉ attendees snapshot →
  Z.of_nat (length (attendees snapshot)) < capacity snapshot →
  let outcome := run now (rsvp_checks eventId userId (Some snapshot)) s in
  (∀ doc,
     s !! eventId = Some doc →
     userId ∉ attendees doc →
     Z.of_nat (length (attendees doc)) < capacity doc →
     ∃ doc',
       outcome = (Reserved (Some doc'), <[eventId := doc']> s) ∧
       attendees doc' = attendees doc ++ [userId] ∧
       userId ∈ attendees doc' ∧
       length (attendees doc') = S (length (attendees doc)) ∧
       title doc' = title doc ∧
       description doc' = description doc ∧
       date doc' = date doc ∧
       location doc' = location doc ∧
       capacity doc' = capacity doc ∧
       creator doc' = creator doc ∧
       createdAt doc' = createdAt doc ∧
       rsvpOpenAt doc' = rsvpOpenAt doc ∧
       image doc' = image doc) ∧
  (¬ (∃ doc, s !! eventId = Some doc ∧ (userId ∉ attendees doc) ∧
             Z.of_nat (length (attendees doc)) < capacity doc) →
     outcome = (AtCapacityOrDuplicate, s)) ∧
  (∀ p' s', thread_step (rsvp_commit eventId userId) s p' s' →
            s' = outcome.2) ∧
  status AtCapacityOrDuplicate = 400 ∧
  (∀ updated, AtCapacityOrDuplicate ≠ Reserved updated) ∧
  AtCapacityOrDuplicate ≠ AlreadyReserved ∧
  AtCapacityOrDuplicate ≠ AtCapacity.
Proof.
  intros Hdate Hopen Hnew Hroom outcome.
  assert (Hout : outcome = run now (rsvp_commit eventId userId) s).
  { unfold outcome. rewrite run_rsvp_checks.
    replace (date snapshot <? now) with false by (symmetry; apply Z.ltb_ge; lia).
    replace (now <? rsvp_open_at snapshot) with false
      by (symmetry; apply Z.ltb_ge; lia).
    apply has_attendee_false in Hnew as ->.
    destruct (Z.geb_spec (Z.of_nat (length (attendees snapshot)))
                (capacity snapshot)); [lia|done]. }
  split; [|split; [|split]].
  - intros doc Hs Hdoc Hcap. rewrite Hout, run_rsvp_commit, Hs.
    assert (rsvp_filter userId doc = true) as -> by by apply rsvp_filter_true.
    exists (rsvp_update userId doc). split; [done|].
    unfold rsvp_update. rewrite addToSet_absent by done. simpl.
    split; [done|]. split; [set_solver|].
    split; [rewrite length_app; simpl; lia|]. done.
  - intros Hno. rewrite Hout, run_rsvp_commit.
    destruct (s !! eventId) as [doc|] eqn:Hs; [|done].
    destruct (rsvp_filter userId doc) eqn:Hf; [|done].
    apply rsvp_filter_true in Hf. exfalso. apply Hno. by exists doc.
  - intros p' s' ->%rsvp_commit_thread_step.
    rewrite Hout, run_rsvp_commit. unfold updateOne.
    destruct (s !! eventId) as [doc|]; [|done].
    by destruct (rsvp_filter userId doc).
  - repeat split; intros; discriminate.
Qed.

(** A race for the last seat, lost and won: the caller read the event
    while it had room, and either another user was admitted before the
    caller's write or the event is still as it was read. *)
Lemma rsvp_commit_conditional_witness :
  run 61000 (rsvp_checks 1%N 5%N (Some last_seat_read))
      {[ 1%N := last_seat_taken ]} =
    (AtCapacityOrDuplicate, {[ 1%N := last_seat_taken ]}) ∧
  ∃ doc',
    run 61000 (rsvp_checks 1%N 5%N (Some last_seat_read))
        {[ 1%N := last_seat_read ]} =
      (Reserved (Some doc'), <[ 1%N := doc' ]> {[ 1%N := last_seat_read ]}) ∧
    attendees doc' = [5%N] ∧
    capacity doc' = 1.
Proof.
  split.
  - destruct (rsvp_commit_conditional 61000 1%N 5%N last_seat_read
                {[ 1%N := last_seat_taken ]}) as (_ & Hlost & _).
    + simpl; lia.
    + unfold rsvp_open_at; simpl; lia.
    + simpl. by intros ?%elem_of_nil.
    + simpl; lia.
    + apply Hlost. intros (doc & Hdoc & _ & Hroom).
      rewrite lookup_singleton_eq in Hdoc. injection Hdoc as <-.
      simpl in Hroom. lia.
  - destruct (rsvp_commit_conditional 61000 1%N 5%N last_seat_read
                {[ 1%N := last_seat_read ]}) as (Hwon & _).
    + simpl; lia.
    + unfold rsvp_open_at; simpl; lia.
    + simpl. by intros ?%elem_of_nil.
    + simpl; lia.
    + destruct (Hwon last_seat_read) as (doc' & Hrun & Hatt & _ & _ & _ & _ & _ & _ & Hcap & _).
      * reflexivity.
      * simpl. by intros ?%elem_of_nil.
      * simpl; lia.
      * exists doc'. split; [exact Hrun|]. split; [exact Hatt|exact Hcap].
Defined.

(** ** Cancellation *)

Lemma run_rsvp_delete now eventId userId (s : gmap N Event) event :
  s !! eventId = Some event →
  run now (rsvp_delete eventId userId) s =
    if has_attendee userId event
    then
      let event' := set_attendees (without userId (attendees event)) event in
      (Cancelled (Some event'), <[eventId := event']> s)
    else (NotReserved, s).
Proof.
  intros Hs. unfold rsvp_delete. cbn [run]. rewrite Hs.
  destruct (has_attendee userId event); [|reflexivity].
  cbn [negb run]. unfold save. rewrite Hs. cbn [run].
  by rewrite lookup_insert_eq.
Qed.

Lemma elem_of_without userId a l : a ∈ without userId l ↔ a ≠ userId ∧ a ∈ l.
Proof. unfold without. by rewrite list_elem_of_filter. Qed.



(** C10.  A successful [rsvp_delete] stores, for the event, the old
    attendees with every occurrence of [userId] removed and the others in
    their order, leaves every other field of the event as it was, and does
    not touch the other events. *)
Theorem rsvp_delete_frame now eventId userId (s : gmap N Event) event :
  s !! eventId = Some event →
  status (run now (rsvp_delete eventId userId) s).1 = 200 →
  ∃ event',
    (run now (rsvp_delete eventId userId) s).2 = <[eventId := event']> s ∧
    attendees event' = filter (λ a, a ≠ userId) (attendees event) ∧
    (userId ∉ attendees event') ∧
    attendees event' `sublist_of` attendees event ∧
    title event' = title event ∧
    description event' = description event ∧
    date event' = date event ∧
    location event' = location event ∧
    capacity event' = capacity event ∧
    creator event' = creator event ∧
    createdAt event' = createdAt event ∧
    rsvpOpenAt event' = rsvpOpenAt event ∧
    image event' = image event.
Proof.
  intros Hs. rewrite (run_rsvp_delete _ _ _ _ _ Hs).
  destruct (has_attendee userId event); [|discriminate].
  intros _. eexists. split; [reflexivity|]. simpl.
  split; [done|]. split; [rewrite elem_of_without; by intros [? _]|].
  split; [apply sublist_filter|]. done.
Qed.

Lemma rsvp_delete_frame_witness :
  ∃ event',
    (run 100000 (rsvp_delete 1%N 5%N) {[ 1%N := held_event ]}).2 =
      <[ 1%N := event' ]> {[ 1%N := held_event ]} ∧
    attendees event' = [4%N; 6%N] ∧
    image event' = "/uploads/a.png".
Proof.
  destruct (rsvp_delete_frame 100000 1%N 5%N {[ 1%N := held_event ]} held_event)
    as (event' & Hstore & Hatt & _ & _ & H); [reflexivity | reflexivity |].
  exists event'. split; [exact Hstore|]. split; [exact Hatt|].
  by destruct H as (_ & _ & _ & _ & _ & _ & _ & _ & ->).
Defined.

(** ** Repeating a reservation *)

(** A call by a user who is among the attendees writes nothing, at any
    instant. *)
Lemma rsvp_post_attendee_unchanged now eventId userId (s : gmap N Event) event :
  s !! eventId = Some event →
  userId ∈ attendees event →
  (run now (rsvp_post eventId userId) s).2 = s.
Proof.
  intros Hs Hin. rewrite (run_rsvp_post_cases _ _ _ _ _ Hs).
  apply has_attendee_true in Hin as ->.
  destruct (date event <? now); [done|].
  by destruct (now <? rsvp_open_at event).
Qed.

(** A successful call was made within the event's window and leaves the
    caller among the attendees. *)
Lemma rsvp_post_reserved now eventId userId (s s1 : gmap N Event) updated :
  run now (rsvp_post eventId userId) s = (Reserved updated, s1) →
  ∃ event1, s1 !! eventId = Some event1 ∧ userId ∈ attendees event1 ∧
            rsvp_open_at event1 ≤ now ≤ date event1.
Proof.
  destruct (s !! eventId) as [event|] eqn:Hs.
  - rewrite (run_rsvp_post_cases _ _ _ _ _ Hs).
    destruct (Z.ltb_spec (date event) now); [discriminate|].
    destruct (Z.ltb_spec now (rsvp_open_at event)); [intros; window_neq|].
    destruct (has_attendee userId event); [discriminate|].
    destruct (_ >=? _); [discriminate|].
    rewrite run_rsvp_commit, Hs.
    destruct (rsvp_filter userId event) eqn:Hf; [|discriminate].
    apply rsvp_filter_true in Hf as [Hnew _].
    intros [= _ <-]. exists (rsvp_update userId event).
    rewrite lookup_insert_eq. split; [done|].
    split; [|done].
    simpl. rewrite addToSet_absent by done. set_solver.
  - unfold rsvp_post. cbn [run]. rewrite Hs. discriminate.
Qed.

(** C6, as the code has it.  After a successful [rsvp_post] by a user,
    every later [rsvp_post] by the same user for the same event that is
    made no later than the event's date returns AlreadyReserved, and every
    later one, whenever it is made, leaves the store as it was, however
    many times it is repeated. *)
Theorem rsvp_post_repeat t0 eventId userId (s0 s1 : gmap N Event) updated :
  run t0 (rsvp_post eventId userId) s0 = (Reserved updated, s1) →
  ∃ event1,
    s1 !! eventId = Some event1 ∧
    (∀ times,
       Forall (λ now, t0 ≤ now ≤ date event1) times →
       run_each (rsvp_post eventId userId) times s1 =
         (replicate (length times) AlreadyReserved, s1)) ∧
    (∀ times, (run_each (rsvp_post eventId userId) times s1).2 = s1).
Proof.
  intros (event1 & Hs1 & Hin & Hopen & Hdate)%rsvp_post_reserved.
  exists event1. split; [done|]. split.
  - induction 1 as [|now later [Hlo Hhi] _ IH]; [done|].
    cbn [run_each length replicate].
    rewrite (run_rsvp_post_cases _ _ _ _ _ Hs1).
    replace (date event1 <? now) with false by (symmetry; apply Z.ltb_ge; lia).
    replace (now <? rsvp_open_at event1) with false
      by (symmetry; apply Z.ltb_ge; lia).
    apply has_attendee_true in Hin as ->. by rewrite IH.
  - induction times as [|now later IH]; [done|].
    cbn [run_each].
    pose proof (rsvp_post_attendee_unchanged now _ _ _ _ Hs1 Hin) as Hsame.
    destruct (run now (rsvp_post eventId userId) s1) as [r s2].
    simpl in Hsame. subst s2.
    destruct (run_each (rsvp_post eventId userId) later s1) as [rs s3].
    by simpl in *.
Qed.

(** After joining at 61 s, the user asks again at 61 s, at 62 s and at the
    very instant of the event. *)
Lemma rsvp_post_repeat_witness :
  run_each (rsvp_post 1%N 5%N) [61000; 62000; 3600000] {[ 1%N := launch_joined ]} =
    ([AlreadyReserved; AlreadyReserved; AlreadyReserved],
     {[ 1%N := launch_joined ]}).
Proof.
  destruct (rsvp_post_repeat 61000 1%N 5%N {[ 1%N := launch ]}
              {[ 1%N := launch_joined ]} (Some launch_joined))
    as (event1 & Hs1 & Hrepeat & _).
  - vm_compute. reflexivity.
  - rewrite lookup_singleton_eq in Hs1. injection Hs1 as <-.
    apply (Hrepeat [61000; 62000; 3600000]).
    repeat constructor; simpl; lia.
Defined.

(** The claim as stated fails once the event's date has passed: the
    repeated call is then rejected as Expired, not as AlreadyReserved. *)
Lemma rsvp_post_repeat_expired :
  run 61000 (rsvp_post 1%N 5%N) {[ 1%N := launch ]} =
    (Reserved (Some launch_joined), {[ 1%N := launch_joined ]}) ∧
  run 3600001 (rsvp_post 1%N 5%N) {[ 1%N := launch_joined ]} =
    (Expired, {[ 1%N := launch_joined ]}) ∧
  Expired ≠ AlreadyReserved.
Proof. split; [|split]; [vm_compute; reflexivity..|discriminate]. Qed.

(** ** Updating an event *)

Lemma validate_nil trim body :
  validate trim body = [] →
  ∃ date capacity,
    f_date body = Some date ∧ f_capacity body = Some capacity ∧ 1 ≤ capacity.
Proof.
  unfold validate. intros H.
  apply app_eq_nil in H as [_ H]. apply app_eq_nil in H as [_ H].
  apply app_eq_nil in H as [Hdate H]. apply app_eq_nil in H as [_ Hcap].
  destruct (f_date body) as [d|]; [|discriminate].
  destruct (f_capacity body) as [c|]; [|discriminate].
  destruct (Z.leb_spec 1 c); [|discriminate].
  by exists d, c.
Qed.

Lemma CapacityBelowAttendance_inj n1 n2 :
  CapacityBelowAttendance n1 = CapacityBelowAttendance n2 → n1 = n2.
Proof.
  unfold CapacityBelowAttendance. intros [= H].
  apply (inj (String.append _)) in H.
  apply append_inv_tail in H.
  by apply (inj pretty) in H.
Qed.

(** C9, as the code has it.  An update by the event's creator whose form
    passes the field validation and whose capacity is below the number of
    attendees is rejected with status 400 and the message that carries
    that number, and the store is left as it was. *)
Theorem events_put_capacity_below trim now id user body file (s : gmap N Event)
    event capacity :
  validate trim body = [] →
  f_capacity body = Some capacity →
  s !! id = Some event →
  creator event = user →
  capacity < Z.of_nat (length (attendees event)) →
  run now (events_put trim id user body file) s =
    (CapacityBelowAttendance (length (attendees event)), s) ∧
  CapacityBelowAttendance (length (attendees event)) =
    mkResponse 400 (JMessage
      ("Capacity cannot be less than current attendees ("
       +:+ pretty (length (attendees event)) +:+ ")")) ∧
  (∀ count,
     CapacityBelowAttendance count =
       CapacityBelowAttendance (length (attendees event)) →
     count = length (attendees event)).
Proof.
  intros Hvalid Hcap Hs Hcreator Hbelow.
  split; [|split; [done|intros count; apply CapacityBelowAttendance_inj]].
  unfold events_put. rewrite Hvalid. cbn [isEmpty negb].
  destruct (validate_nil _ _ Hvalid) as (d & c & -> & Hc & _).
  rewrite Hcap in Hc. injection Hc as <-. rewrite Hcap.
  cbn [run]. rewrite Hs, Hcreator, N.eqb_refl. cbn [negb].
  by apply Z.ltb_lt in Hbelow as ->.
Qed.

(** The creator asks for capacity 1 on the event with two attendees. *)
Lemma events_put_capacity_below_witness :
  run 100000 (events_put js_trim 1%N 7%N (form_capacity 1) None)
      {[ 1%N := two_attendees ]} =
    (CapacityBelowAttendance 2, {[ 1%N := two_attendees ]}).
Proof.
  apply (events_put_capacity_below js_trim 100000 1%N 7%N (form_capacity 1) None
           {[ 1%N := two_attendees ]} two_attendees 1);
    [reflexivity | reflexivity | reflexivity | reflexivity | simpl; lia].
Defined.

(** The claim as stated fails on a form that does not pass the validation:
    capacity 0 is below the two attendees, and the answer is the list of
    validation errors, which does not carry the number of attendees. *)
Lemma events_put_capacity_zero :
  0 < Z.of_nat (length (attendees two_attendees)) ∧
  run 100000 (events_put js_trim 1%N 7%N (form_capacity 0) None)
      {[ 1%N := two_attendees ]} =
    (ValidationFailed ["Capacity must be at least 1"],
     {[ 1%N := two_attendees ]}) ∧
  (∀ count, ValidationFailed ["Capacity must be at least 1"]
            ≠ CapacityBelowAttendance count).
Proof.
  split; [simpl; lia|]. split; [vm_compute; reflexivity|].
  intros count. discriminate.
Qed.

(** ** Invariants of the stored events under interleaved requests *)

Lemma every_event_insert P (s : gmap N Event) id doc :
  every_event P s → P doc → every_event P (<[id := doc]> s).
Proof.
  intros Hs Hdoc id' doc'. rewrite lookup_insert.
  case_decide; [by intros [= <-]|by apply Hs].
Qed.

Lemma every_event_delete P (s : gmap N Event) id :
  every_event P s → every_event P (delete id s).
Proof.
  intros Hs id' doc'. rewrite lookup_delete.
  case_decide; [done|by apply Hs].
Qed.

Lemma respects_thread_step P {R} (p p' : Prog R) (s s' : gmap N Event) :
  respects P p → every_event P s → thread_step p s p' s' →
  respects P p' ∧ every_event P s'.
Proof.
  intros Hp Hs Hstep.
  destruct Hstep as [k t s|id k s|id f u k s|id a k s|doc k s id Hfresh|id k s|q k s];
    inversion Hp; simplify_eq.
  - split; [|done]. match goal with H : ∀ _, respects P _ |- _ => apply H end.
  - split; [|done].
    match goal with H : ∀ _, _ → respects P _ |- _ => apply H end.
    intros doc Hdoc. by apply (Hs id).
  - split; [match goal with H : ∀ _, respects P _ |- _ => apply H end|].
    unfold updateOne. destruct (s !! id) as [doc|] eqn:Hdoc; [|done].
    destruct (f doc) eqn:Hf; [|done]. simpl.
    apply every_event_insert; [done|].
    match goal with H : ∀ _, P _ → _ → P _ |- _ => apply H; [|done] end.
    by apply (Hs id).
  - split; [match goal with H : ∀ _, respects P _ |- _ => apply H end|].
    unfold save. destruct (s !! id) as [doc|] eqn:Hdoc; [|done]. simpl.
    apply every_event_insert; [done|].
    match goal with H : ∀ _, P _ → P _ |- _ => apply H end.
    by apply (Hs id).
  - split; [match goal with H : ∀ _, respects P _ |- _ => apply H end|].
    by apply every_event_insert.
  - split; [match goal with H : ∀ _, respects P _ |- _ => apply H end|].
    by apply every_event_delete.
  - split; [|done]. match goal with H : ∀ _, respects P _ |- _ => apply H end.
Qed.

(** If every accepted handler respects [P], then [P] holds of every stored
    event in every configuration reached from a store where it held. *)
Lemma respects_reachable P accepted (s0 : gmap N Event) c :
  (∀ p, accepted p → respects P p) →
  every_event P s0 →
  reachable accepted s0 c →
  every_event P (store c) ∧ Forall (respects P) (pool c).
Proof.
  intros Hacc Hs0 Hreach. unfold reachable in Hreach.
  revert c Hreach.
  apply (rtc_ind_r
           (λ c, every_event P (store c) ∧ Forall (respects P) (pool c)));
    [by split|].
  intros c c' _ Hstep [Hs Hpool].
  destruct Hstep as [p s ps Hp|i p p' s s' ps Hi Hstep]; simpl in *.
  - split; [done|]. apply Forall_app. split; [done|].
    apply Forall_singleton. by apply Hacc.
  - assert (respects P p) as Hp.
    { rewrite Forall_lookup in Hpool. by apply (Hpool i). }
    destruct (respects_thread_step P _ _ _ _ Hp Hs Hstep) as [Hp' Hs'].
    split; [done|]. by apply Forall_insert.
Qed.

(** *** Capacity *)

Lemma rsvp_update_within_capacity userId doc :
  rsvp_filter userId doc = true → within_capacity (rsvp_update userId doc).
Proof.
  intros [Hnew Hroom]%rsvp_filter_true. unfold within_capacity. simpl.
  rewrite addToSet_absent by done. rewrite length_app. simpl. lia.
Qed.

Lemma rsvp_commit_respects_capacity eventId userId :
  respects within_capacity (rsvp_commit eventId userId).
Proof.
  unfold rsvp_commit. constructor.
  - intros doc _. apply rsvp_update_within_capacity.
  - intros n. destruct (n =? 0)%nat; repeat constructor.
Qed.

Lemma rsvp_post_respects_capacity eventId userId :
  respects within_capacity (rsvp_post eventId userId).
Proof.
  unfold rsvp_post. constructor. intros [event|] _; [|constructor].
  unfold rsvp_checks. constructor. intros now1.
  destruct (date event <? now1); [constructor|].
  constructor. intros now2.
  destruct (now2 <? rsvp_open_at event); [repeat constructor|].
  destruct (has_attendee userId event); [constructor|].
  destruct (_ >=? _); [constructor|].
  apply rsvp_commit_respects_capacity.
Qed.

(** C1.  Starting from a store where no event has more attendees than its
    capacity, no interleaving of any number of [rsvp_post] requests, with
    their reads, clock readings and conditional writes in any order, leads
    to a store where some event has more attendees than its capacity. *)
Theorem rsvp_post_never_overbooks (s0 : gmap N Event) c :
  every_event within_capacity s0 →
  reachable is_rsvp_post s0 c →
  ∀ id event,
    store c !! id = Some event →
    Z.of_nat (length (attendees event)) ≤ capacity event.
Proof.
  intros Hs0 Hreach.
  apply (respects_reachable within_capacity is_rsvp_post s0 c); [|done..].
  intros p (eventId & userId & ->). apply rsvp_post_respects_capacity.
Qed.

Lemma last_seat_race_reachable :
  reachable is_rsvp_post {[ 1%N := last_seat_read ]} last_seat_race.
Proof.
  unfold reachable.
  arrive (rsvp_post 1%N 5%N). arrive (rsvp_post 1%N 6%N).
  thread_reads 0%nat. thread_reads 1%nat.
  thread_clock 0%nat 61000. thread_clock 0%nat 61000.
  thread_clock 1%nat 61000. thread_clock 1%nat 61000.
  thread_updates 0%nat. thread_updates 1%nat.
  apply rtc_refl.
Defined.

Lemma rsvp_post_never_overbooks_witness :
  reachable is_rsvp_post {[ 1%N := last_seat_read ]} last_seat_race ∧
  (∀ id event,
     store last_seat_race !! id = Some event →
     Z.of_nat (length (attendees event)) ≤ capacity event).
Proof.
  split; [apply last_seat_race_reachable|].
  apply (rsvp_post_never_overbooks {[ 1%N := last_seat_read ]} last_seat_race).
  - intros id doc Hdoc. apply lookup_singleton_Some in Hdoc as [_ <-].
    unfold within_capacity. simpl. lia.
  - apply last_seat_race_reachable.
Defined.

(** A handler that respects [P], run alone, keeps [P]. *)
Lemma respects_run P {R} now (p : Prog R) (s : gmap N Event) :
  respects P p → every_event P s → every_event P (run now p s).2.
Proof.
  intros Hp. revert s.
  induction Hp as [r|k _ IH|id k _ IH|id f u k Hu _ IH|id a k Ha _ IH
                  |doc k Hdoc _ IH|id k _ IH|q k _ IH]; intros s Hs; cbn [run].
  - done.
  - by apply IH.
  - apply IH; [|done]. intros doc Hdoc. by apply (Hs id).
  - unfold updateOne. destruct (s !! id) as [doc|] eqn:Hdoc; [|by apply IH].
    destruct (f doc) eqn:Hf; [|by apply IH].
    apply IH, every_event_insert; [done|]. apply Hu; [|done]. by apply (Hs id).
  - unfold save. destruct (s !! id) as [doc|] eqn:Hdoc; [|by apply IH].
    apply IH, every_event_insert; [done|]. apply Ha. by apply (Hs id).
  - by apply IH, every_event_insert.
  - by apply IH, every_event_delete.
  - by apply IH.
Qed.

(** *** No duplicate attendee *)

Lemma addToSet_NoDup userId l : NoDup l → NoDup (addToSet userId l).
Proof.
  intros Hl. unfold addToSet.
  destruct (existsb _ l) eqn:E; [done|].
  apply NoDup_app. split; [done|]. split; [|apply NoDup_singleton].
  intros a Ha ->%list_elem_of_singleton.
  apply existsb_eqb_elem_of in Ha. congruence.
Qed.

Lemma rsvp_post_respects_no_duplicate eventId userId :
  respects no_duplicate (rsvp_post eventId userId).
Proof.
  unfold rsvp_post. constructor. intros [event|] _; [|constructor].
  unfold rsvp_checks. constructor. intros now1.
  destruct (date event <? now1); [constructor|].
  constructor. intros now2.
  destruct (now2 <? rsvp_open_at event); [repeat constructor|].
  destruct (has_attendee userId event); [constructor|].
  destruct (_ >=? _); [constructor|].
  unfold rsvp_commit. constructor.
  - intros doc Hdoc _. by apply addToSet_NoDup.
  - intros n. destruct (n =? 0)%nat; repeat constructor.
Qed.

Lemma rsvp_delete_respects_no_duplicate eventId userId :
  respects no_duplicate (rsvp_delete eventId userId).
Proof.
  unfold rsvp_delete. constructor. intros [event|] Hread; [|constructor].
  destruct (has_attendee userId event); [|constructor]. cbn [negb].
  constructor.
  - intros doc _. unfold no_duplicate. simpl.
    apply NoDup_filter. by apply Hread.
  - intros [|]; repeat constructor.
Qed.

Lemma events_post_respects_no_duplicate trim user body file :
  respects no_duplicate (events_post trim user body file).
Proof.
  unfold events_post.
  destruct (negb (isEmpty (validate trim body))); [constructor|].
  destruct (f_date body); [|constructor].
  destruct (f_capacity body); [|constructor].
  constructor. intros now. constructor. intros created.
  constructor; [apply NoDup_nil_2|]. intros id. constructor.
Qed.

Lemma events_put_respects_no_duplicate trim id user body file :
  respects no_duplicate (events_put trim id user body file).
Proof.
  unfold events_put.
  destruct (negb (isEmpty (validate trim body))); [constructor|].
  destruct (f_date body); [|constructor].
  destruct (f_capacity body); [|constructor].
  constructor. intros [event|] _; [|constructor].
  destruct (negb _); [constructor|].
  destruct (_ <? _); [constructor|].
  constructor.
  - intros doc Hdoc. unfold no_duplicate.
    destruct file; [destruct (bool_decide _)|]; exact Hdoc.
  - intros [|]; constructor.
Qed.

Lemma events_delete_respects_no_duplicate id user :
  respects no_duplicate (events_delete id user).
Proof.
  unfold events_delete. constructor. intros [event|] _; [|constructor].
  destruct (negb _); repeat constructor.
Qed.

Lemma handle_respects_no_duplicate trim regex req :
  respects no_duplicate (handle trim regex req).
Proof.
  destruct req; simpl.
  - apply rsvp_post_respects_no_duplicate.
  - apply rsvp_delete_respects_no_duplicate.
  - unfold rsvp_user. repeat constructor.
  - unfold rsvp_user_created. repeat constructor.
  - unfold events_get. constructor. intros now.
    destruct (compile _ _); repeat constructor.
  - unfold events_get_one. constructor. intros [event|] _; constructor.
  - apply events_post_respects_no_duplicate.
  - apply events_put_respects_no_duplicate.
  - apply events_delete_respects_no_duplicate.
Qed.

(** C2.  Starting from a store whose events have no duplicate attendee
    (the empty store, for one), every configuration reached by any number
    of requests of any kind (join, cancel, create, update, and also delete
    and the read-only routes), interleaved in any order, has no event with
    a duplicate attendee. *)
Theorem attendees_never_duplicated trim regex (s0 : gmap N Event) c :
  every_event no_duplicate s0 →
  reachable (is_request trim regex) s0 c →
  ∀ id event, store c !! id = Some event → NoDup (attendees event).
Proof.
  intros Hs0 Hreach.
  apply (respects_reachable no_duplicate (is_request trim regex) s0 c); [|done..].
  intros p (req & ->). apply handle_respects_no_duplicate.
Qed.

(** ** The listing *)

(** On a pattern without [.] the engine is the substring test. *)
Lemma dot_regex_plain pattern :
  has_char "."%char pattern = false →
  ∃ test, dot_regex pattern "i" = Some test ∧
          ∀ subject, test subject = contains_ci pattern subject.
Proof.
  intros Hplain. eexists. split; [reflexivity|]. intros subject.
  unfold contains_ci. simpl has_char.
  assert (Hhere : ∀ subject,
    match_here (pattern_char true) pattern subject =
    match_here (char_eq true) pattern subject).
  { clear subject. induction pattern as [|p pattern IH]; intros subject.
    - by destruct subject.
    - simpl in Hplain. apply orb_false_iff in Hplain as [Hp Hplain].
      destruct subject as [|c subject]; [done|]. simpl.
      rewrite IH by done. unfold pattern_char.
      apply bool_decide_eq_false in Hp.
      rewrite (bool_decide_eq_false_2 (p = "."%char)) by congruence. done. }
  induction subject as [|c subject IH]; simpl.
  - by rewrite Hhere.
  - by rewrite Hhere, IH.
Qed.

Global Instance date_le_total : Total date_le.
Proof. intros a b. unfold date_le. lia. Qed.

Global Instance date_le_trans : Transitive date_le.
Proof. intros a b c. unfold date_le. lia. Qed.

Lemma elem_of_find_sorted query (s : gmap N Event) event :
  event ∈ find_sorted query s ↔
  query event = true ∧ ∃ id, s !! id = Some event.
Proof.
  unfold find_sorted. rewrite merge_sort_Permutation.
  rewrite list_elem_of_filter, list_elem_of_fmap.
  split.
  - intros [Hq ([id doc] & -> & Hin)]. split; [done|].
    exists id. by apply elem_of_map_to_list.
  - intros [Hq [id Hid]]. split; [done|].
    exists (id, event). split; [done|]. by apply elem_of_map_to_list.
Qed.

Lemma find_sorted_sorted query (s : gmap N Event) :
  StronglySorted date_le (find_sorted query s).
Proof. apply StronglySorted_merge_sort; apply _. Qed.

(** C8, as the code has it.  The listing leaves the store as it was and
    answers either 500, when the search is not a regular expression, or
    200 with stored events such that: without a date parameter every
    returned event has [date ≥ now]; with a date parameter every returned
    event has [date ≥] that date; with a non-empty search parameter the
    title of every returned event passes the test that the store's regular
    expression engine compiles from the search as pattern and the option
    [i]; and the events are in ascending order of date. *)
Theorem events_get_listing regex now search dateParam (s : gmap N Event) :
  (run now (events_get regex search dateParam) s).2 = s ∧
  ((run now (events_get regex search dateParam) s).1 = ServerError ∨
   ∃ events,
     (run now (events_get regex search dateParam) s).1 =
       mkResponse 200 (JEvents events) ∧
     (∀ event, event ∈ events → ∃ id, s !! id = Some event) ∧
     (dateParam = None → ∀ event, event ∈ events → now ≤ date event) ∧
     (∀ dateFilter, dateParam = Some dateFilter →
        ∀ event, event ∈ events → dateFilter ≤ date event) ∧
     (∀ pattern, search = Some pattern → pattern ≠ "" →
        ∃ test, regex pattern "i" = Some test ∧
                ∀ event, event ∈ events → test (title event) = true) ∧
     StronglySorted (λ a b, date a ≤ date b) events).
Proof.
  unfold events_get. cbn [run].
  destruct (compile _ _) as [matches|] eqn:Hcompile; cbn [run];
    (split; [reflexivity|]); [right|by left].
  eexists. split; [reflexivity|].
  unfold compile in Hcompile.
  split; [|split; [|split; [|split]]].
  - by intros event [_ ?]%elem_of_find_sorted.
  - intros -> event [Hq _]%elem_of_find_sorted.
    destruct search as [[|c rest]|]; simpl in Hcompile;
      [|destruct (regex _ _); [|done]|]; injection Hcompile as <-;
      [|apply andb_true_iff in Hq as [Hq _]|]; by apply Z.leb_le in Hq.
  - intros dateFilter -> event [Hq _]%elem_of_find_sorted.
    destruct search as [[|c rest]|]; simpl in Hcompile;
      [|destruct (regex _ _); [|done]|]; injection Hcompile as <-;
      [|apply andb_true_iff in Hq as [Hq _]|]; by apply Z.leb_le in Hq.
  - intros pattern -> Hne.
    destruct pattern as [|c rest]; [done|].
    assert (Hregex : ∃ test,
      regex (String c rest) "i" = Some test ∧
      matches = λ doc, (q_date (match dateParam with
                                 | Some dateFilter =>
                                     mkQuery dateFilter (Some (String c rest, "i"))
                                 | None => mkQuery now (Some (String c rest, "i"))
                                 end) <=? date doc) && test (title doc)).
    { destruct dateParam; simpl in Hcompile;
        (destruct (regex _ _) as [test|]; [|done]);
        injection Hcompile as <-; by exists test. }
    destruct Hregex as (test & Htest & ->). exists test. split; [done|].
    intros event [Hq _]%elem_of_find_sorted.
    by apply andb_true_iff in Hq as [_ Hq].
  - apply find_sorted_sorted.
Qed.

(** A search for [CON] at 5000 lists the concert. *)
Lemma events_get_listing_witness :
  run 5000 (events_get dot_regex (Some "CON") None)
      {[ 1%N := reunion; 2%N := concert ]} =
    (mkResponse 200 (JEvents [concert]), {[ 1%N := reunion; 2%N := concert ]}) ∧
  5000 ≤ date concert.
Proof.
  destruct (events_get_listing dot_regex 5000 (Some "CON") None
              {[ 1%N := reunion; 2%N := concert ]})
    as [Hstore [Herror|(events & Hrun & _ & Hupcoming & _)]].
  - vm_compute in Herror. discriminate.
  - assert (events = [concert]) as ->.
    { vm_compute in Hrun. by injection Hrun as <-. }
    split.
    + rewrite (surjective_pairing (run _ _ _)). by rewrite Hrun, Hstore.
    + apply Hupcoming; [reflexivity | apply list_elem_of_here].
Defined.

(** The claim as stated fails on the search [a.c] with a date parameter in
    the past: the event titled [abc], held before [now], is returned; its
    title does not contain [a.c], and its date is before [now]. *)
Lemma events_get_regex_and_past :
  run 5000 (events_get dot_regex (Some "a.c") (Some 500))
      {[ 1%N := reunion; 2%N := concert ]} =
    (mkResponse 200 (JEvents [reunion]), {[ 1%N := reunion; 2%N := concert ]}) ∧
  contains_ci "a.c" (title reunion) = false ∧
  date reunion < 5000.
Proof. split; [vm_compute; reflexivity|]. split; [reflexivity|]. simpl. lia. Qed.

(** Whatever the engine, a date parameter replaces the bound [date ≥ now]
    of the query: a past event is listed. *)
Lemma events_get_date_replaces_upcoming regex :
  run 5000 (events_get regex None (Some 500)) {[ 1%N := reunion ]} =
    (mkResponse 200 (JEvents [reunion]), {[ 1%N := reunion ]}) ∧
  date reunion < 5000.
Proof. split; [vm_compute; reflexivity|]. simpl. lia. Qed.

Lemma joined_twice_reachable :
  reachable (is_request js_trim dot_regex) ∅ joined_twice.
Proof.
  unfold reachable.
  request js_trim dot_regex (PostEvent 7%N (form_capacity 2) None).
  thread_clock 0%nat 0. thread_clock 0%nat 0. thread_inserts 0%nat 1%N.
  request js_trim dot_regex (PostRsvp 1%N 5%N).
  thread_reads 1%nat. thread_clock 1%nat 61000. thread_clock 1%nat 61000.
  thread_updates 1%nat.
  request js_trim dot_regex (PostRsvp 1%N 5%N).
  thread_reads 2%nat. thread_clock 2%nat 62000. thread_clock 2%nat 62000.
  apply rtc_refl.
Defined.

Lemma attendees_never_duplicated_witness :
  reachable (is_request js_trim dot_regex) ∅ joined_twice ∧
  (∀ id event,
     store joined_twice !! id = Some event → NoDup (attendees event)).
Proof.
  split; [apply joined_twice_reachable|].
  apply (attendees_never_duplicated js_trim dot_regex ∅ joined_twice).
  - intros id doc Hdoc. by rewrite lookup_empty in Hdoc.
  - apply joined_twice_reachable.
Defined.

(** ** One request alone is one of the interleavings *)

Lemma new_id_fresh (s : gmap N Event) : s !! new_id s = None.
Proof. apply not_elem_of_dom. unfold new_id. apply is_fresh. Qed.

(** [run] follows the steps of the handler, the clock showing [now] at
    every reading and no other request stepping in between. *)
Lemma run_handler_steps {R} now (p : Prog R) (s : gmap N Event) :
  handler_steps (p, s) (Ret (run now p s).1, (run now p s).2).
Proof.
  unfold handler_steps. revert s.
  induction p as [r|k IH|id k IH|id f u k IH|id a k IH|doc k IH|id k IH|q k IH];
    intros s; cbn [run].
  - apply rtc_refl.
  - eapply rtc_l; [|apply IH]. apply (ts_date k now).
  - eapply rtc_l; [|apply IH]. apply ts_find.
  - pose proof (ts_update id f u k s) as Hstep.
    destruct (updateOne id f u s) as [n s1].
    eapply rtc_l; [|apply IH]. exact Hstep.
  - pose proof (ts_save id a k s) as Hstep.
    destruct (save id a s) as [b s1].
    eapply rtc_l; [|apply IH]. exact Hstep.
  - eapply rtc_l; [|apply IH]. apply (ts_insert doc k s), new_id_fresh.
  - eapply rtc_l; [|apply IH]. apply ts_delete.
  - eapply rtc_l; [|apply IH]. apply ts_list.
Qed.

(** ** Scenarios of the application, run on the model *)

(** An event of capacity 2 is created at 0.  A reservation at 30 s is told
    to wait 30 seconds; at 61 s two users are admitted and a third finds
    the event full. *)
Example scenario_capacity_two :
  let created := (run 0 (events_post js_trim 7%N (form_capacity 2) None) ∅).2 in
  let '(r1, s1) := run 30000 (rsvp_post 0%N 5%N) created in
  let '(r2, s2) := run 61000 (rsvp_post 0%N 5%N) s1 in
  let '(r3, s3) := run 61000 (rsvp_post 0%N 6%N) s2 in
  let '(r4, s4) := run 61000 (rsvp_post 0%N 8%N) s3 in
  created = {[ 0%N := launch ]} ∧
  r1 = WindowNotOpen 30 ∧
  r2 = Reserved (Some (set_attendees [5%N] launch)) ∧
  r3 = Reserved (Some (set_attendees [5%N; 6%N] launch)) ∧
  r4 = AtCapacity ∧
  s4 = {[ 0%N := set_attendees [5%N; 6%N] launch ]}.
Proof. vm_compute. repeat split. Qed.

(** Cancelling and reserving again restores the membership. *)
Example scenario_cancel_then_reserve :
  let '(r1, s1) := run 61000 (rsvp_delete 1%N 5%N) {[ 1%N := launch_joined ]} in
  let '(r2, s2) := run 62000 (rsvp_post 1%N 5%N) s1 in
  r1 = Cancelled (Some launch) ∧
  r2 = Reserved (Some launch_joined) ∧
  s2 = {[ 1%N := launch_joined ]}.
Proof. vm_compute. repeat split. Qed.

(** * Further properties of the routes *)

(** ** A reservation handled alone *)

(** X1.  Handled alone, [rsvp_post] never answers with the merged rejection
    of a lost race; it is accepted exactly when the event is stored, is not
    past, its window is open, the user is not among the attendees and there
    is room; and whatever the answer, the only possible change of the store
    is the user appended to the attendees of that event. *)
Theorem rsvp_post_alone now eventId userId (s : gmap N Event) :
  (run now (rsvp_post eventId userId) s).1 ≠ AtCapacityOrDuplicate ∧
  ((∃ updated, (run now (rsvp_post eventId userId) s).1 = Reserved updated) ↔
   ∃ event, s !! eventId = Some event ∧
            now ≤ date event ∧ rsvp_open_at event ≤ now ∧
            (userId ∉ attendees event) ∧
            Z.of_nat (length (attendees event)) < capacity event) ∧
  ((run now (rsvp_post eventId userId) s).2 = s ∨
   ∃ event, s !! eventId = Some event ∧
            (run now (rsvp_post eventId userId) s).2 =
              <[eventId := set_attendees (attendees event ++ [userId]) event]> s).
Proof.
  destruct (s !! eventId) as [event|] eqn:Hs.
  2:{ unfold rsvp_post. cbn [run]. rewrite Hs. simpl.
      split; [discriminate|]. split; [|by left].
      split; [intros [? ?]; discriminate|by intros (? & ? & _)]. }
  rewrite (run_rsvp_post_cases _ _ _ _ _ Hs).
  destruct (Z.ltb_spec (date event) now) as [Hpast|Hdate]; cbn [fst snd].
  { split; [discriminate|]. split; [|by left].
    split; [intros [? ?]; discriminate|].
    intros (? & [= <-] & ? & _). lia. }
  destruct (Z.ltb_spec now (rsvp_open_at event)) as [Hearly|Hopen]; cbn [fst snd].
  { split; [intros H; window_neq|]. split; [|by left].
    split; [intros [? H]; window_neq|].
    intros (? & [= <-] & _ & ? & _). lia. }
  destruct (has_attendee userId event) eqn:Hin; cbn [fst snd].
  { apply has_attendee_true in Hin.
    split; [discriminate|]. split; [|by left].
    split; [intros [? ?]; discriminate|].
    by intros (? & [= <-] & _ & _ & ? & _). }
  apply has_attendee_false in Hin.
  destruct (Z.geb_spec (Z.of_nat (length (attendees event))) (capacity event))
    as [Hfull|Hroom]; cbn [fst snd].
  { split; [discriminate|]. split; [|by left].
    split; [intros [? ?]; discriminate|].
    intros (? & [= <-] & _ & _ & _ & ?). lia. }
  rewrite run_rsvp_commit, Hs.
  assert (rsvp_filter userId event = true) as ->
    by (apply rsvp_filter_true; split; [done|lia]).
  cbn [fst snd]. split; [discriminate|]. split.
  - split; [|by eexists]. intros _. exists event. repeat split; [lia..|done|lia].
  - right. exists event. split; [done|].
    unfold rsvp_update. by rewrite addToSet_absent.
Qed.

(** ** Reserving and cancelling *)

Lemma without_absent userId l : userId ∉ l → without userId l = l.
Proof.
  intros Hout. unfold without. induction l as [|a l IH]; [done|].
  apply not_elem_of_cons in Hout as [Hne Hout].
  rewrite filter_cons_True by done. by rewrite IH.
Qed.

Lemma without_app_singleton userId l :
  userId ∉ l → without userId (l ++ [userId]) = l.
Proof.
  intros Hout. unfold without. rewrite filter_app.
  fold (without userId l). rewrite without_absent by done.
  rewrite filter_cons_False by (intros H; by apply H).
  rewrite filter_nil. apply app_nil_r.
Qed.

Lemma without_length_lt userId l :
  userId ∈ l → (length (without userId l) < length l)%nat.
Proof.
  intros Hin. unfold without. induction l as [|a l IH]; [by apply elem_of_nil in Hin|].
  destruct (decide (a = userId)) as [->|Hne].
  - rewrite filter_cons_False by (intros H; by apply H). simpl.
    pose proof (length_filter (λ x, x ≠ userId) l). lia.
  - rewrite filter_cons_True by done. simpl.
    apply elem_of_cons in Hin as [->|Hin]; [done|].
    specialize (IH Hin). lia.
Qed.

Lemma without_Permutation userId l :
  NoDup l → userId ∈ l → without userId l ++ [userId] ≡ₚ l.
Proof.
  intros Hnd Hin. unfold without.
  induction Hnd as [|a l Ha Hnd IH]; [by apply elem_of_nil in Hin|].
  destruct (decide (a = userId)) as [->|Hne].
  - rewrite filter_cons_False by (intros H; by apply H).
    fold (without userId l). rewrite without_absent by done.
    symmetry. apply Permutation_cons_append.
  - rewrite filter_cons_True by done. simpl.
    apply elem_of_cons in Hin as [->|Hin]; [done|].
    by rewrite IH.
Qed.

(** X2.  A reservation that is accepted, followed by its cancellation at
    any later instant, leaves the store exactly as it was before the
    reservation. *)
Theorem rsvp_post_then_delete t1 t2 eventId userId (s s1 : gmap N Event) updated :
  run t1 (rsvp_post eventId userId) s = (Reserved updated, s1) →
  ∃ event,
    s !! eventId = Some event ∧
    run t2 (rsvp_delete eventId userId) s1 = (Cancelled (Some event), s).
Proof.
  intros Hrun.
  destruct (rsvp_post_alone t1 eventId userId s) as (_ & [Hacc _] & Hstore).
  rewrite Hrun in Hacc, Hstore. simpl in Hacc, Hstore.
  destruct Hacc as (event & Hs & _ & _ & Hnew & _); [by eexists|].
  exists event. split; [done|].
  destruct Hstore as [->|(event' & Hs' & ->)].
  { (* the store cannot be unchanged: the answer was an acceptance *)
    rewrite (run_rsvp_post_cases _ _ _ _ _ Hs) in Hrun.
    destruct (date event <? t1); [discriminate|].
    destruct (t1 <? rsvp_open_at event); [window_neq|].
    destruct (has_attendee userId event); [discriminate|].
    destruct (_ >=? _); [discriminate|].
    rewrite run_rsvp_commit, Hs in Hrun.
    destruct (rsvp_filter userId event); [|discriminate].
    injection Hrun as _ Hrun.
    apply (f_equal (λ m : gmap N Event, m !! eventId)) in Hrun.
    rewrite lookup_insert_eq, Hs in Hrun. injection Hrun as Hrun.
    apply (f_equal attendees) in Hrun. simpl in Hrun.
    rewrite addToSet_absent in Hrun by done.
    apply (f_equal length) in Hrun. rewrite length_app in Hrun. simpl in Hrun. lia. }
  rewrite Hs in Hs'. injection Hs' as <-.
  erewrite run_rsvp_delete by apply lookup_insert_eq.
  assert (has_attendee userId (set_attendees (attendees event ++ [userId]) event)
          = true) as ->.
  { apply has_attendee_true. simpl. set_solver. }
  simpl. rewrite without_app_singleton by done.
  replace (set_attendees (attendees event) _) with event by by destruct event.
  by rewrite insert_insert_eq, insert_id.
Qed.

Lemma rsvp_post_then_delete_witness :
  run 3700000 (rsvp_delete 1%N 5%N) {[ 1%N := launch_joined ]} =
    (Cancelled (Some launch), {[ 1%N := launch ]}).
Proof.
  destruct (rsvp_post_then_delete 61000 3700000 1%N 5%N {[ 1%N := launch ]}
              {[ 1%N := launch_joined ]} (Some launch_joined))
    as (event & Hs & Hrun); [vm_compute; reflexivity|].
  rewrite lookup_singleton_eq in Hs. by injection Hs as <-.
Defined.

(** X3.  For an attendee of an event within its capacity, cancelling and
    reserving again while the window is open succeeds and restores the
    membership: the user is back, at the end of the attendees, and when the
    attendees had no duplicate they are the same as before up to order. *)
Theorem rsvp_delete_then_post t1 t2 eventId userId (s : gmap N Event) event :
  s !! eventId = Some event →
  userId ∈ attendees event →
  Z.of_nat (length (attendees event)) ≤ capacity event →
  rsvp_open_at event ≤ t2 ≤ date event →
  let restored :=
    set_attendees (without userId (attendees event) ++ [userId]) event in
  run t2 (rsvp_post eventId userId)
      (run t1 (rsvp_delete eventId userId) s).2 =
    (Reserved (Some restored), <[eventId := restored]> s) ∧
  (NoDup (attendees event) → attendees restored ≡ₚ attendees event).
Proof.
  intros Hs Hin Hcap [Hopen Hdate] restored.
  split; [|intros Hnd; by apply without_Permutation].
  rewrite (run_rsvp_delete _ _ _ _ _ Hs).
  apply has_attendee_true in Hin as Hhas. rewrite Hhas. cbn [snd].
  set (cancelled := set_attendees (without userId (attendees event)) event).
  rewrite (run_rsvp_post_cases _ _ _ _ cancelled) by apply lookup_insert_eq.
  replace (date cancelled <? t2) with false
    by (symmetry; apply Z.ltb_ge; simpl; lia).
  replace (t2 <? rsvp_open_at cancelled) with false
    by (symmetry; apply Z.ltb_ge; unfold rsvp_open_at in *; simpl; lia).
  assert (Hout : userId ∉ attendees cancelled).
  { simpl. rewrite elem_of_without. by intros [? _]. }
  apply has_attendee_false in Hout as Hhas'. rewrite Hhas'.
  pose proof (without_length_lt _ _ Hin) as Hlen.
  destruct (Z.geb_spec (Z.of_nat (length (attendees cancelled)))
              (capacity cancelled)) as [Hfull|_]; [simpl in Hfull; lia|].
  rewrite run_rsvp_commit, lookup_insert_eq.
  assert (rsvp_filter userId cancelled = true) as ->
    by (apply rsvp_filter_true; split; [done|simpl; lia]).
  unfold rsvp_update. rewrite addToSet_absent by done.
  by rewrite insert_insert_eq.
Qed.

Lemma rsvp_delete_then_post_witness :
  run 62000 (rsvp_post 1%N 5%N)
      (run 61000 (rsvp_delete 1%N 5%N) {[ 1%N := launch_joined ]}).2 =
    (Reserved (Some launch_joined), {[ 1%N := launch_joined ]}).
Proof.
  destruct (rsvp_delete_then_post 61000 62000 1%N 5%N
              {[ 1%N := launch_joined ]} launch_joined) as [Hrun _].
  - reflexivity.
  - simpl. apply list_elem_of_here.
  - simpl. lia.
  - unfold rsvp_open_at. simpl. lia.
  - exact Hrun.
Defined.

(** ** Creating, updating and deleting events *)

Lemma run_events_post trim now user body file (s : gmap N Event) date capacity :
  validate trim body = [] →
  f_date body = Some date →
  f_capacity body = Some capacity →
  let event :=
    mkEvent (trim (f_title body)) (trim (f_description body)) date
            (trim (f_location body)) capacity [] user now
            (Some (now + 60 * 1000))
            (match file with
             | Some filename => "/uploads/" +:+ filename
             | None => ""
             end) in
  run now (events_post trim user body file) s =
    (mkResponse 201 (JEvent event), <[new_id s := event]> s).
Proof.
  intros Hvalid Hdate Hcap event. unfold events_post.
  rewrite Hvalid, Hdate, Hcap. reflexivity.
Qed.



(** X5.  A form that fails the validation is rejected by the create and the
    update routes alike, with status 400 and the store as it was.  The
    errors are collected field by field, not stopped at the first: each
    message is reported exactly when its own field fails. *)
Theorem invalid_form_rejected trim now id user body file (s : gmap N Event) :
  (validate trim body ≠ [] →
     run now (events_post trim user body file) s =
       (mkResponse 400 (JErrors (validate trim body)), s) ∧
     run now (events_put trim id user body file) s =
       (mkResponse 400 (JErrors (validate trim body)), s)) ∧
  ("Title is required" ∈ validate trim body ↔ trim (f_title body) = "") ∧
  ("Description is required" ∈ validate trim body ↔
     trim (f_description body) = "") ∧
  ("Date is required" ∈ validate trim body ↔ f_date body = None) ∧
  ("Location is required" ∈ validate trim body ↔
     trim (f_location body) = "") ∧
  ("Capacity must be at least 1" ∈ validate trim body ↔
     ∀ capacity, f_capacity body = Some capacity → capacity < 1).
Proof.
  split.
  { intros Hinvalid. unfold events_post, events_put.
    destruct (validate trim body) as [|e errors]; [done|]. by split. }
  unfold validate, is_blank.
  destruct (trim (f_title body)) as [|? ?],
    (trim (f_description body)) as [|? ?],
    (f_date body) as [d|], (trim (f_location body)) as [|? ?],
    (f_capacity body) as [c|]; try destruct (Z.leb_spec 1 c);
    cbn [app]; rewrite ?elem_of_cons, ?elem_of_nil;
    repeat split; intros; try discriminate; try done; try lia; auto;
    repeat match goal with
           | H : _ ∨ _ |- _ => destruct H; try discriminate; try done
           | H : ∀ capacity, Some ?c = Some capacity → _ |- _ =>
               specialize (H c eq_refl); lia
           | H : Some ?c = Some _ |- _ => injection H as <-; lia
           end;
    auto 10.
Qed.

Lemma invalid_form_rejected_witness :
  run 100000 (events_post js_trim 7%N (form_capacity 0) None) ∅ =
    (mkResponse 400 (JErrors ["Capacity must be at least 1"]), ∅).
Proof.
  destruct (invalid_form_rejected js_trim 100000 1%N 7%N (form_capacity 0) None ∅)
    as [Hrejected _].
  apply Hrejected. discriminate.
Defined.

(** X6.  Only the creator changes or deletes an event through the event
    routes: whatever form and file another user sends, the update leaves
    the store as it was, answering 403 when the form is valid, and the
    deletion is refused with 403 and leaves the store as it was. *)
Theorem not_creator_forbidden trim now id user body file (s : gmap N Event) event :
  s !! id = Some event →
  creator event ≠ user →
  (run now (events_put trim id user body file) s).2 = s ∧
  (validate trim body = [] →
     run now (events_put trim id user body file) s =
       (mkResponse 403 (JMessage "Not authorized to update this event"), s)) ∧
  run now (events_delete id user) s =
    (mkResponse 403 (JMessage "Not authorized to delete this event"), s).
Proof.
  intros Hs Hother. apply N.eqb_neq in Hother.
  assert (Hput : validate trim body = [] →
     run now (events_put trim id user body file) s =
       (mkResponse 403 (JMessage "Not authorized to update this event"), s)).
  { intros Hvalid. unfold events_put.
    destruct (validate_nil _ _ Hvalid) as (d & c & -> & -> & _).
    rewrite Hvalid. cbn [isEmpty negb run]. by rewrite Hs, Hother. }
  split; [|split; [exact Hput|]].
  - destruct (validate trim body) as [|e errors] eqn:Hvalid.
    + by rewrite Hput.
    + unfold events_put. by rewrite Hvalid.
  - unfold events_delete. cbn [run]. by rewrite Hs, Hother.
Qed.

Lemma not_creator_forbidden_witness :
  run 100000 (events_delete 1%N 5%N) {[ 1%N := two_attendees ]} =
    (mkResponse 403 (JMessage "Not authorized to delete this event"),
     {[ 1%N := two_attendees ]}).
Proof.
  apply (not_creator_forbidden js_trim 100000 1%N 5%N (form_capacity 1) None
           {[ 1%N := two_attendees ]} two_attendees);
    [reflexivity | discriminate].
Defined.



(** X8.  The creator's deletion removes the event and nothing else; from
    then on the event is not found, whether it is looked up, reserved or
    cancelled. *)
Theorem events_delete_removes now id (s : gmap N Event) event :
  s !! id = Some event →
  run now (events_delete id (creator event)) s =
    (mkResponse 200 (JMessage "Event deleted successfully"), delete id s) ∧
  (∀ other, other ≠ id → delete id s !! other = s !! other) ∧
  (∀ t, run t (events_get_one id) (delete id s) = (NotFound, delete id s)) ∧
  (∀ t userId,
     run t (rsvp_post id userId) (delete id s) = (NotFound, delete id s)) ∧
  (∀ t userId,
     run t (rsvp_delete id userId) (delete id s) = (NotFound, delete id s)).
Proof.
  intros Hs. split; [|split; [|split; [|split]]].
  - unfold events_delete. cbn [run]. rewrite Hs, N.eqb_refl. reflexivity.
  - intros other Hother. by apply lookup_delete_ne.
  - intros t. unfold events_get_one. cbn [run]. by rewrite lookup_delete_eq.
  - intros t userId. unfold rsvp_post. cbn [run]. by rewrite lookup_delete_eq.
  - intros t userId. unfold rsvp_delete. cbn [run]. by rewrite lookup_delete_eq.
Qed.

Lemma events_delete_removes_witness :
  run 100000 (events_delete 1%N 7%N) {[ 1%N := two_attendees ]} =
    (mkResponse 200 (JMessage "Event deleted successfully"), ∅).
Proof.
  destruct (events_delete_removes 100000 1%N {[ 1%N := two_attendees ]}
              two_attendees) as [Hrun _]; [reflexivity|].
  rewrite delete_singleton_eq in Hrun. exact Hrun.
Defined.

(** ** The listings, exactly *)

(** The stored events, one for each id. *)
Lemma find_sorted_Permutation query (P : Event → Prop) `{!∀ e, Decision (P e)}
    (s : gmap N Event) :
  (∀ e, query e = true ↔ P e) →
  find_sorted query s ≡ₚ filter P (snd <$> map_to_list s).
Proof.
  intros Hquery. unfold find_sorted. rewrite merge_sort_Permutation.
  by rewrite (list_filter_iff _ P).
Qed.



(** X10.  The list of a user's RSVPs is exactly the stored events that have
    the user among their attendees and are dated [now] or later, by
    ascending date; the list of the events a user created is exactly the
    stored events of that creator, past ones included, by ascending date.
    Neither route writes. *)
Theorem rsvp_user_lists now userId (s : gmap N Event) :
  (∃ events,
     run now (rsvp_user userId) s = (mkResponse 200 (JEvents events), s) ∧
     events ≡ₚ filter (λ e, userId ∈ attendees e ∧ now ≤ date e)
                      (snd <$> map_to_list s) ∧
     StronglySorted (λ a b, date a ≤ date b) events) ∧
  (∃ events,
     run now (rsvp_user_created userId) s =
       (mkResponse 200 (JEvents events), s) ∧
     events ≡ₚ filter (λ e, creator e = userId) (snd <$> map_to_list s) ∧
     StronglySorted (λ a b, date a ≤ date b) events).
Proof.
  split; eexists; (split; [reflexivity|]); (split; [|apply find_sorted_sorted]).
  - apply find_sorted_Permutation. intros e.
    by rewrite andb_true_iff, Z.leb_le, has_attendee_true.
  - apply find_sorted_Permutation. intros e. by rewrite N.eqb_eq.
Qed.

(** X11.  Once a reservation is accepted at [now], the event as it is
    stored then is among the user's RSVPs listed at that instant; once a
    cancellation is accepted, the event as it is stored then is not, at any
    instant. *)
Theorem rsvp_then_listed now eventId userId (s s1 : gmap N Event) :
  (∀ updated,
     run now (rsvp_post eventId userId) s = (Reserved (Some updated), s1) →
     ∃ events,
       run now (rsvp_user userId) s1 = (mkResponse 200 (JEvents events), s1) ∧
       updated ∈ events) ∧
  (∀ updated t,
     run now (rsvp_delete eventId userId) s = (Cancelled (Some updated), s1) →
     ∃ events,
       run t (rsvp_user userId) s1 = (mkResponse 200 (JEvents events), s1) ∧
       updated ∉ events).
Proof.
  split.
  - intros updated Hrun. eexists. split; [reflexivity|].
    destruct (rsvp_post_reserved _ _ _ _ _ _ Hrun)
      as (event1 & Hs1 & Hin & _ & Hdate).
    assert (updated = event1) as ->.
    { destruct (rsvp_post_alone now eventId userId s) as (_ & _ & Hstore).
      destruct (s !! eventId) as [event|] eqn:Hs.
      - rewrite (run_rsvp_post_cases _ _ _ _ _ Hs) in Hrun.
        destruct (date event <? now); [discriminate|].
        destruct (now <? rsvp_open_at event); [window_neq|].
        destruct (has_attendee userId event); [discriminate|].
        destruct (_ >=? _); [discriminate|].
        rewrite run_rsvp_commit, Hs in Hrun.
        destruct (rsvp_filter userId event); [|discriminate].
        injection Hrun as <- <-. rewrite lookup_insert_eq in Hs1.
        by injection Hs1.
      - unfold rsvp_post in Hrun. cbn [run] in Hrun. rewrite Hs in Hrun.
        discriminate. }
    apply elem_of_find_sorted. split; [|by exists eventId].
    apply andb_true_iff. split; [by apply has_attendee_true|].
    apply Z.leb_le. lia.
  - intros updated t Hrun. eexists. split; [reflexivity|].
    intros [Hq _]%elem_of_find_sorted.
    apply andb_true_iff in Hq as [Hin%has_attendee_true _].
    destruct (s !! eventId) as [event|] eqn:Hs.
    + rewrite (run_rsvp_delete _ _ _ _ _ Hs) in Hrun.
      destruct (has_attendee userId event); [|discriminate].
      injection Hrun as <- _. simpl in Hin.
      apply elem_of_without in Hin as [? _]. done.
    + unfold rsvp_delete in Hrun. cbn [run] in Hrun. rewrite Hs in Hrun.
      discriminate.
Qed.

Lemma rsvp_then_listed_witness :
  ∃ events,
    run 61000 (rsvp_user 5%N) {[ 1%N := launch_joined ]} =
      (mkResponse 200 (JEvents events), {[ 1%N := launch_joined ]}) ∧
    launch_joined ∈ events.
Proof.
  destruct (rsvp_then_listed 61000 1%N 5%N {[ 1%N := launch ]}
              {[ 1%N := launch_joined ]}) as [Hlisted _].
  apply Hlisted. vm_compute. reflexivity.
Defined.

(** ** Capacity, one request at a time and interleaved *)

Lemma handle_within_capacity trim regex now req (s : gmap N Event) :
  every_event within_capacity s →
  every_event within_capacity (run now (handle trim regex req) s).2.
Proof.
  intros Hs. destruct req as [eventId userId|eventId userId|userId|userId
                             |search dateParam|id|user body file
                             |id user body file|id user]; cbn [handle].
  - apply respects_run; [apply rsvp_post_respects_capacity|done].
  - destruct (s !! eventId) as [event|] eqn:Hevent.
    + rewrite (run_rsvp_delete _ _ _ _ _ Hevent).
      destruct (has_attendee userId event); [|done]. cbn [snd].
      apply every_event_insert; [done|].
      pose proof (Hs _ _ Hevent) as Hcap. unfold within_capacity in *. simpl.
      pose proof (length_filter (λ a, a ≠ userId) (attendees event)).
      unfold without. lia.
    + unfold rsvp_delete. cbn [run]. by rewrite Hevent.
  - done.
  - done.
  - unfold events_get. cbn [run]. by destruct (compile _ _).
  - unfold events_get_one. cbn [run]. by destruct (s !! id).
  - destruct (validate trim body) as [|e errors] eqn:Hvalid.
    + destruct (validate_nil _ _ Hvalid) as (d & c & Hd & Hc & Hc1).
      rewrite (run_events_post _ _ _ _ _ _ d c) by done. cbn [snd].
      apply every_event_insert; [done|]. unfold within_capacity. simpl. lia.
    + unfold events_post. by rewrite Hvalid.
  - destruct (validate trim body) as [|e errors] eqn:Hvalid.
    + destruct (validate_nil _ _ Hvalid) as (d & c & Hd & Hc & Hc1).
      unfold events_put. rewrite Hvalid, Hd, Hc. cbn [isEmpty negb run].
      destruct (s !! id) as [event|] eqn:Hevent; [|done].
      destruct (negb _); [done|].
      destruct (Z.ltb_spec c (Z.of_nat (length (attendees event)))); [done|].
      cbn [run]. unfold save. rewrite Hevent. cbn [run snd].
      apply every_event_insert; [done|]. unfold within_capacity.
      by destruct file; [destruct (bool_decide _)|].
    + unfold events_put. by rewrite Hvalid.
  - unfold events_delete. cbn [run].
    destruct (s !! id) as [event|]; [|done].
    destruct (negb _); [done|]. cbn [run snd]. by apply every_event_delete.
Qed.

(** X12.  Requests of any kind handled one after the other, each at its own
    instant, keep every event within its capacity: an update reads the
    attendees it compares the new capacity with in the same request that
    writes it. *)
Theorem run_requests_within_capacity trim regex requests (s : gmap N Event) :
  every_event within_capacity s →
  ∀ id event,
    (run_requests trim regex requests s).2 !! id = Some event →
    Z.of_nat (length (attendees event)) ≤ capacity event.
Proof.
  revert s. induction requests as [|[now req] later IH]; intros s Hs.
  - exact Hs.
  - cbn [run_requests].
    pose proof (handle_within_capacity trim regex now req s Hs) as Hs1.
    destruct (run now (handle trim regex req) s) as [r s1]. cbn [snd] in Hs1.
    specialize (IH s1 Hs1).
    by destruct (run_requests trim regex later s1) as [rs s2].
Qed.

(** A user joins, the creator lowers the capacity to the three attendees,
    and another user leaves. *)
Lemma run_requests_within_capacity_witness :
  (run_requests js_trim dot_regex
     [(61000, PostRsvp 1%N 6%N);
      (62000, PutEvent 1%N 7%N (form_capacity 3) None);
      (63000, DeleteRsvp 1%N 4%N)]
     {[ 1%N := two_attendees ]}).2 =
    {[ 1%N := set_capacity 3 (set_attendees [5%N; 6%N] two_attendees) ]} ∧
  (∀ id event,
     (run_requests js_trim dot_regex
        [(61000, PostRsvp 1%N 6%N);
         (62000, PutEvent 1%N 7%N (form_capacity 3) None);
         (63000, DeleteRsvp 1%N 4%N)]
        {[ 1%N := two_attendees ]}).2 !! id = Some event →
     Z.of_nat (length (attendees event)) ≤ capacity event).
Proof.
  split; [vm_compute; reflexivity|].
  apply (run_requests_within_capacity js_trim dot_regex).
  intros id doc Hdoc. apply lookup_singleton_Some in Hdoc as [_ <-].
  unfold within_capacity. simpl. lia.
Defined.

(** Steps of one handler are steps of the pool it is in. *)
Lemma handler_steps_l {R} (p p' : Prog R) (s s' : gmap N Event) after :
  thread_step p s p' s' →
  handler_steps (p', s') after →
  handler_steps (p, s) after.
Proof. intros Hstep Hrest. by eapply rtc_l; [|exact Hrest]. Qed.

Lemma pool_steps_pairs accepted i (before after : Prog Response * gmap N Event)
    ps :
  handler_steps before after →
  ps !! i = Some before.1 →
  rtc (step accepted) (mkConfig before.2 ps)
      (mkConfig after.2 (<[i := after.1]> ps)).
Proof.
  unfold handler_steps. intros Hsteps. revert ps.
  induction Hsteps as [[p s]|[p s] [p1 s1] after Hstep _ IH]; intros ps Hi.
  - simpl in *. by rewrite list_insert_id.
  - simpl in *. eapply rtc_l; [by eapply step_run|].
    replace (<[i:=after.1]> ps) with (<[i:=after.1]> (<[i:=p1]> ps))
      by apply list_insert_insert_eq.
    apply IH. apply list_lookup_insert_eq. by eapply lookup_lt_Some.
Qed.

Lemma pool_steps accepted i (p p' : Prog Response) (s s' : gmap N Event) ps :
  handler_steps (p, s) (p', s') →
  ps !! i = Some p →
  rtc (step accepted) (mkConfig s ps) (mkConfig s' (<[i := p']> ps)).
Proof. intros Hsteps Hi. by apply (pool_steps_pairs _ _ (p, s) (p', s')). Qed.

(** The reservation handler gets to its atomic update when the event it
    reads passes the checks at the instant the clock shows. *)
Lemma rsvp_post_reaches_commit t eventId userId (s : gmap N Event) event :
  s !! eventId = Some event →
  rsvp_open_at event ≤ t ≤ date event →
  userId ∉ attendees event →
  Z.of_nat (length (attendees event)) < capacity event →
  handler_steps (rsvp_post eventId userId, s) (rsvp_commit eventId userId, s).
Proof.
  intros Hs [Hopen Hdate] Hnew Hroom.
  eapply handler_steps_l; [apply ts_find|]. rewrite Hs. cbn [rsvp_checks].
  eapply handler_steps_l; [apply (ts_date _ t)|]. cbn beta.
  replace (date event <? t) with false by (symmetry; apply Z.ltb_ge; lia).
  eapply handler_steps_l; [apply (ts_date _ t)|]. cbn beta.
  replace (t <? rsvp_open_at event) with false by (symmetry; apply Z.ltb_ge; lia).
  apply has_attendee_false in Hnew as ->.
  destruct (Z.geb_spec (Z.of_nat (length (attendees event))) (capacity event));
    [lia|].
  apply rtc_refl.
Qed.

(** X13.  Interleaved with a reservation, an update can leave an event with
    more attendees than its capacity: the creator's update reads the
    attendees, a reservation is then accepted, and the update writes a
    capacity equal to the number of attendees it had read.  This happens
    from any store with an event that has at least one attendee, room for
    one more, and a window that opens before its date. *)
Theorem update_race_overbooks regex id userId (s : gmap N Event) event :
  s !! id = Some event →
  userId ∉ attendees event →
  1 ≤ Z.of_nat (length (attendees event)) < capacity event →
  rsvp_open_at event ≤ date event →
  ∃ c overbooked,
    reachable (is_request js_trim regex) s c ∧
    store c !! id = Some overbooked ∧
    capacity overbooked < Z.of_nat (length (attendees overbooked)).
Proof.
  intros Hs Hnew [Hsome Hroom] Hwindow.
  set (n := Z.of_nat (length (attendees event))) in *.
  set (form := mkForm "Launch" "Party" (Some (date event)) "Hall" (Some n)).
  assert (Hvalid : validate js_trim form = []).
  { unfold validate, form. cbn.
    by replace (1 <=? n) with true by (symmetry; apply Z.leb_le; lia). }
  (* the update, after its read *)
  assert (Hput : ∃ assigned k,
    thread_step (events_put js_trim id (creator event) form None) s
                (Save id assigned k) s ∧
    ∀ doc, capacity (assigned doc) = n ∧ attendees (assigned doc) = attendees doc).
  { unfold events_put. rewrite Hvalid. cbn [isEmpty negb f_date f_capacity form].
    match goal with
    | |- ∃ a k, thread_step (FindById ?i ?K) _ _ _ ∧ _ =>
        pose proof (ts_find i K s) as Hstep
    end.
    cbn beta in Hstep. rewrite Hs, N.eqb_refl in Hstep. cbn [negb] in Hstep.
    replace (n <? Z.of_nat (length (attendees event))) with false in Hstep
      by (symmetry; apply Z.ltb_ge; unfold n; lia).
    eexists _, _. split; [exact Hstep|]. by intros doc. }
  destruct Hput as (assigned & k & Hput & Hassigned).
  set (joined := rsvp_update userId event).
  assert (Hfilter : rsvp_filter userId event = true)
    by (apply rsvp_filter_true; split; [done|lia]).
  eexists (mkConfig (<[id := assigned joined]> (<[id := joined]> s)) _),
          (assigned joined).
  split; [|split].
  - unfold reachable.
    eapply rtc_l.
    { apply (step_arrive _ (handle js_trim regex (PutEvent id (creator event) form None))).
      by eexists. }
    eapply rtc_l.
    { apply (step_arrive _ (handle js_trim regex (PostRsvp id userId))). by eexists. }
    cbn [app handle].
    eapply rtc_l; [eapply (step_run _ 0%nat); [reflexivity|exact Hput]|].
    cbn [list_insert].
    etrans.
    { apply (pool_steps _ 1%nat (rsvp_post id userId) (rsvp_commit id userId) s s);
        [|reflexivity].
      apply (rsvp_post_reaches_commit (date event) _ _ _ event); [done|lia|done|done]. }
    cbn [list_insert].
    eapply rtc_l.
    { eapply (step_run _ 1%nat); [reflexivity|apply ts_update]. }
    unfold updateOne. rewrite Hs, Hfilter. cbn [fst snd list_insert].
    eapply rtc_l.
    { eapply (step_run _ 0%nat); [reflexivity|apply ts_save]. }
    unfold save. rewrite lookup_insert_eq. cbn [fst snd list_insert].
    apply rtc_refl.
  - cbn [store]. apply lookup_insert_eq.
  - destruct (Hassigned joined) as [-> ->]. unfold joined, rsvp_update. simpl.
    rewrite addToSet_absent by done. rewrite length_app. simpl. unfold n. lia.
Qed.

(** The event with two attendees and capacity 5: the creator lowers the
    capacity to 2 while user 6 joins. *)
Lemma update_race_overbooks_witness :
  ∃ c overbooked,
    reachable (is_request js_trim dot_regex) {[ 1%N := two_attendees ]} c ∧
    store c !! 1%N = Some overbooked ∧
    capacity overbooked < Z.of_nat (length (attendees overbooked)).
Proof.
  apply (update_race_overbooks dot_regex 1%N 6%N {[ 1%N := two_attendees ]}
           two_attendees).
  - reflexivity.
  - simpl. rewrite !elem_of_cons, elem_of_nil. intros [?|[?|[]]]; discriminate.
  - simpl. lia.
  - unfold rsvp_open_at. simpl. lia.
Defined.

Lemma handle_respects_capacity_positive trim regex req :
  respects capacity_positive (handle trim regex req).
Proof.
  destruct req as [eventId userId|eventId userId|userId|userId
                  |search dateParam|id|user body file
                  |id user body file|id user]; cbn [handle].
  - unfold rsvp_post. constructor. intros [event|] _; [|constructor].
    unfold rsvp_checks. constructor. intros now1.
    destruct (date event <? now1); [constructor|].
    constructor. intros now2.
    destruct (now2 <? rsvp_open_at event); [repeat constructor|].
    destruct (has_attendee userId event); [constructor|].
    destruct (_ >=? _); [constructor|].
    unfold rsvp_commit. constructor; [by intros doc Hdoc _|].
    intros n. destruct (n =? 0)%nat; repeat constructor.
  - unfold rsvp_delete. constructor. intros [event|] _; [|constructor].
    destruct (has_attendee userId event); [|constructor]. cbn [negb].
    constructor; [by intros doc Hdoc|]. intros [|]; repeat constructor.
  - unfold rsvp_user. repeat constructor.
  - unfold rsvp_user_created. repeat constructor.
  - unfold events_get. constructor. intros now.
    destruct (compile _ _); repeat constructor.
  - unfold events_get_one. constructor. intros [event|] _; constructor.
  - unfold events_post.
    destruct (validate trim body) as [|e errors] eqn:Hvalid; [|constructor].
    destruct (validate_nil _ _ Hvalid) as (d & c & -> & -> & Hc1).
    cbn [isEmpty negb]. constructor. intros now. constructor. intros created.
    constructor; [exact Hc1|]. intros id. constructor.
  - unfold events_put.
    destruct (validate trim body) as [|e errors] eqn:Hvalid; [|constructor].
    destruct (validate_nil _ _ Hvalid) as (d & c & -> & -> & Hc1).
    cbn [isEmpty negb]. constructor. intros [event|] _; [|constructor].
    destruct (negb _); [constructor|].
    destruct (_ <? _); [constructor|].
    constructor; [|intros [|]; constructor].
    intros doc _. unfold capacity_positive.
    by destruct file; [destruct (bool_decide _)|].
  - unfold events_delete. constructor. intros [event|] _; [|constructor].
    destruct (negb _); repeat constructor.
Qed.

(** X14.  From a store whose events have a capacity of at least 1 (the
    empty store, for one), no interleaving of requests of any kind leads
    to an event with a capacity below 1: the capacity is only written from
    a form that passed the validation. *)
Theorem capacity_stays_positive trim regex (s0 : gmap N Event) c :
  every_event capacity_positive s0 →
  reachable (is_request trim regex) s0 c →
  ∀ id event, store c !! id = Some event → 1 ≤ capacity event.
Proof.
  intros Hs0 Hreach.
  apply (respects_reachable capacity_positive (is_request trim regex) s0 c);
    [|done..].
  intros p (req & ->). apply handle_respects_capacity_positive.
Qed.

Lemma capacity_stays_positive_witness :
  reachable (is_request js_trim dot_regex) ∅ joined_twice ∧
  (∀ id event, store joined_twice !! id = Some event → 1 ≤ capacity event).
Proof.
  split; [apply joined_twice_reachable|].
  apply (capacity_stays_positive js_trim dot_regex ∅ joined_twice).
  - intros id doc Hdoc. by rewrite lookup_empty in Hdoc.
  - apply joined_twice_reachable.
Defined.

(** ** What no route writes *)

Lemma keeps_thread_step Q {R} (p p' : Prog R) (s s' : gmap N Event) :
  (∀ doc, Q doc doc) →
  keeps Q p → thread_step p s p' s' →
  keeps Q p' ∧
  ∀ id before after, s !! id = Some before → s' !! id = Some after →
                     Q before after.
Proof.
  intros Hrefl Hp Hstep.
  destruct Hstep as [k t s|id k s|id f u k s|id a k s|doc k s id Hfresh|id k s|q k s];
    inversion Hp; simplify_eq.
  - split; [done|]. intros id b a Hb Ha. simplify_eq. apply Hrefl.
  - split; [done|]. intros id' b a Hb Ha. simplify_eq. apply Hrefl.
  - split; [done|]. intros id' b a Hb. unfold updateOne.
    destruct (s !! id) as [doc|] eqn:Hdoc; [|intros; simpl in *; simplify_eq; apply Hrefl].
    destruct (f doc) eqn:Hf; [|intros; simpl in *; simplify_eq; apply Hrefl]. simpl.
    rewrite lookup_insert. case_decide; intros; simplify_eq; auto.
  - split; [done|]. intros id' b a' Hb. unfold save.
    destruct (s !! id) as [doc|] eqn:Hdoc; [|intros; simpl in *; simplify_eq; apply Hrefl]. simpl.
    rewrite lookup_insert. case_decide; intros; simplify_eq; auto.
  - split; [done|]. intros id' b a Hb.
    rewrite lookup_insert. case_decide; intros; simplify_eq; auto.
  - split; [done|]. intros id' b a Hb.
    rewrite lookup_delete. case_decide; intros; simplify_eq; auto.
  - split; [done|]. intros id b a Hb Ha. simplify_eq. apply Hrefl.
Qed.

Lemma keeps_reachable Q accepted (s0 : gmap N Event) c :
  (∀ doc, Q doc doc) →
  (∀ p, accepted p → keeps Q p) →
  reachable accepted s0 c →
  Forall (keeps Q) (pool c).
Proof.
  intros Hrefl Hacc Hreach. unfold reachable in Hreach. revert c Hreach.
  apply (rtc_ind_r (λ c, Forall (keeps Q) (pool c))); [by constructor|].
  intros c c' _ Hstep Hpool.
  destruct Hstep as [p s ps Hp|i p p' s s' ps Hi Hstep]; simpl in *.
  - apply Forall_app. split; [done|]. apply Forall_singleton. by apply Hacc.
  - apply Forall_insert; [done|].
    rewrite Forall_lookup in Hpool.
    by destruct (keeps_thread_step Q _ _ _ _ Hrefl (Hpool i p Hi) Hstep).
Qed.

Lemma keeps_step Q accepted (s0 : gmap N Event) c c' :
  (∀ doc, Q doc doc) →
  (∀ p, accepted p → keeps Q p) →
  reachable accepted s0 c →
  step accepted c c' →
  ∀ id before after,
    store c !! id = Some before → store c' !! id = Some after →
    Q before after.
Proof.
  intros Hrefl Hacc Hreach Hstep.
  pose proof (keeps_reachable Q accepted s0 c Hrefl Hacc Hreach) as Hpool.
  destruct Hstep as [p s ps Hp|i p p' s s' ps Hi Hstep]; simpl in *.
  - intros id b a Hb Ha. simplify_eq. apply Hrefl.
  - rewrite Forall_lookup in Hpool.
    by destruct (keeps_thread_step Q _ _ _ _ Hrefl (Hpool i p Hi) Hstep).
Qed.

Lemma handle_keeps_origin trim regex req : keeps same_origin (handle trim regex req).
Proof.
  destruct req as [eventId userId|eventId userId|userId|userId
                  |search dateParam|id|user body file
                  |id user body file|id user]; cbn [handle].
  - unfold rsvp_post. constructor. intros [event|]; [|constructor].
    unfold rsvp_checks. constructor. intros now1.
    destruct (date event <? now1); [constructor|].
    constructor. intros now2.
    destruct (now2 <? rsvp_open_at event); [repeat constructor|].
    destruct (has_attendee userId event); [constructor|].
    destruct (_ >=? _); [constructor|].
    unfold rsvp_commit. constructor; [by intros doc _|].
    intros n. destruct (n =? 0)%nat; repeat constructor.
  - unfold rsvp_delete. constructor. intros [event|]; [|constructor].
    destruct (has_attendee userId event); [|constructor]. cbn [negb].
    constructor; [by intros doc|]. intros [|]; repeat constructor.
  - unfold rsvp_user. repeat constructor.
  - unfold rsvp_user_created. repeat constructor.
  - unfold events_get. constructor. intros now.
    destruct (compile _ _); repeat constructor.
  - unfold events_get_one. constructor. intros [event|]; constructor.
  - unfold events_post.
    destruct (negb _); [constructor|].
    destruct (f_date body); [|constructor].
    destruct (f_capacity body); repeat constructor.
  - unfold events_put.
    destruct (negb _); [constructor|].
    destruct (f_date body); [|constructor].
    destruct (f_capacity body); [|constructor].
    constructor. intros [event|]; [|constructor].
    destruct (negb _); [constructor|].
    destruct (_ <? _); [constructor|].
    constructor; [|intros [|]; constructor].
    intros doc. by destruct file; [destruct (bool_decide _)|].
  - unfold events_delete. constructor. intros [event|]; [|constructor].
    destruct (negb _); repeat constructor.
Qed.

(** X15.  No step of any route, under any interleaving of requests of any
    kind, changes the creator, [createdAt] or [rsvpOpenAt] of a stored
    event. *)
Theorem origin_never_written trim regex (s0 : gmap N Event) c c' :
  reachable (is_request trim regex) s0 c →
  step (is_request trim regex) c c' →
  ∀ id before after,
    store c !! id = Some before →
    store c' !! id = Some after →
    creator after = creator before ∧
    createdAt after = createdAt before ∧
    rsvpOpenAt after = rsvpOpenAt before.
Proof.
  intros Hreach Hstep.
  apply (keeps_step same_origin (is_request trim regex) s0 c c'); [done| |done..].
  intros p (req & ->). apply handle_keeps_origin.
Qed.

(** A reservation about to be written, and the step that writes it. *)
Lemma origin_never_written_witness :
  creator launch_joined = creator launch ∧
  createdAt launch_joined = createdAt launch ∧
  rsvpOpenAt launch_joined = rsvpOpenAt launch.
Proof.
  assert (Hreach : reachable (is_request js_trim dot_regex) {[ 1%N := launch ]}
                     (mkConfig {[ 1%N := launch ]} [rsvp_commit 1%N 5%N])).
  { unfold reachable.
    request js_trim dot_regex (PostRsvp 1%N 5%N).
    thread_reads 0%nat. thread_clock 0%nat 61000. thread_clock 0%nat 61000.
    apply rtc_refl. }
  assert (Hstep : step (is_request js_trim dot_regex)
                    (mkConfig {[ 1%N := launch ]} [rsvp_commit 1%N 5%N])
                    (mkConfig {[ 1%N := launch_joined ]}
                       [FindById 1%N (λ updatedEvent, Ret (Reserved updatedEvent))])).
  { exact (step_run (is_request js_trim dot_regex) 0%nat _ _ _ _
             [rsvp_commit 1%N 5%N] eq_refl
             (ts_update 1%N (rsvp_filter 5%N) (rsvp_update 5%N) _
                {[ 1%N := launch ]})). }
  exact (origin_never_written js_trim dot_regex _ _ _ Hreach Hstep 1%N launch
           launch_joined eq_refl eq_refl).
Defined.

(** ** What the RSVP routes write *)

Lemma updates_only_thread_step {R} (p p' : Prog R) (s s' : gmap N Event) :
  updates_only p → thread_step p s p' s' →
  updates_only p' ∧ ∀ id, s' !! id = None ↔ s !! id = None.
Proof.
  intros Hp Hstep.
  destruct Hstep as [k t s|id k s|id f u k s|id a k s|doc k s id Hfresh|id k s|q k s];
    inversion Hp; simplify_eq; (split; [done|]); try done.
  - intros id'. unfold updateOne.
    destruct (s !! id) as [doc|] eqn:Hdoc; [|done].
    destruct (f doc); [|done]. simpl. rewrite lookup_insert.
    case_decide; [subst; rewrite Hdoc|]; done.
  - intros id'. unfold save.
    destruct (s !! id) as [doc|] eqn:Hdoc; [|done]. simpl.
    rewrite lookup_insert. case_decide; [subst; rewrite Hdoc|]; done.
Qed.

Lemma rsvp_request_keeps p :
  is_rsvp_request p → keeps same_but_attendees p ∧ updates_only p.
Proof.
  intros (eventId & userId & [-> | ->]).
  - unfold rsvp_post, rsvp_checks, rsvp_commit. split.
    + constructor. intros [event|]; [|constructor].
      constructor. intros now1. destruct (_ <? _); [constructor|].
      constructor. intros now2. destruct (_ <? _); [repeat constructor|].
      destruct (has_attendee _ _); [constructor|].
      destruct (_ >=? _); [constructor|].
      constructor; [by intros doc _|].
      intros n. destruct (n =? 0)%nat; repeat constructor.
    + constructor. intros [event|]; [|constructor].
      constructor. intros now1. destruct (_ <? _); [constructor|].
      constructor. intros now2. destruct (_ <? _); [repeat constructor|].
      destruct (has_attendee _ _); [constructor|].
      destruct (_ >=? _); [constructor|].
      constructor. intros n. destruct (n =? 0)%nat; repeat constructor.
  - unfold rsvp_delete. split.
    + constructor. intros [event|]; [|constructor].
      destruct (negb _); [constructor|].
      constructor; [by intros doc|]. intros [|]; repeat constructor.
    + constructor. intros [event|]; [|constructor].
      destruct (negb _); [constructor|].
      constructor. intros [|]; repeat constructor.
Qed.

Lemma updates_only_reachable accepted (s0 : gmap N Event) c :
  (∀ p, accepted p → updates_only p) →
  reachable accepted s0 c →
  Forall updates_only (pool c).
Proof.
  intros Hacc Hreach. unfold reachable in Hreach. revert c Hreach.
  apply (rtc_ind_r (λ c, Forall updates_only (pool c))); [by constructor|].
  intros c c' _ Hstep Hpool.
  destruct Hstep as [p s ps Hp|i p p' s s' ps Hi Hstep]; simpl in *.
  - apply Forall_app. split; [done|]. apply Forall_singleton. by apply Hacc.
  - apply Forall_insert; [done|].
    rewrite Forall_lookup in Hpool.
    by destruct (updates_only_thread_step _ _ _ _ (Hpool i p Hi) Hstep).
Qed.

(** X16.  Under any interleaving of reservations and cancellations, no step
    creates or deletes an event, and the only field of a stored event that
    a step can change is [attendees]. *)
Theorem rsvp_writes_attendees_only (s0 : gmap N Event) c c' :
  reachable is_rsvp_request s0 c →
  step is_rsvp_request c c' →
  (∀ id, store c' !! id = None ↔ store c !! id = None) ∧
  (∀ id before after,
     store c !! id = Some before →
     store c' !! id = Some after →
     after = set_attendees (attendees after) before).
Proof.
  intros Hreach Hstep. split.
  - pose proof (updates_only_reachable is_rsvp_request s0 c
                  (λ p Hp, proj2 (rsvp_request_keeps p Hp)) Hreach) as Hpool.
    destruct Hstep as [p s ps Hp|i p p' s s' ps Hi Hstep]; simpl in *; [done|].
    rewrite Forall_lookup in Hpool.
    by destruct (updates_only_thread_step _ _ _ _ (Hpool i p Hi) Hstep).
  - apply (keeps_step same_but_attendees is_rsvp_request s0 c c'); [| |done..].
    + by intros [].
    + intros p Hp. by apply rsvp_request_keeps.
Qed.

Lemma rsvp_writes_attendees_only_witness :
  launch_joined = set_attendees (attendees launch_joined) launch.
Proof.
  assert (Hreach : reachable is_rsvp_request {[ 1%N := launch ]}
                     (mkConfig {[ 1%N := launch ]} [rsvp_commit 1%N 5%N])).
  { unfold reachable.
    eapply rtc_l; [apply (step_arrive _ (rsvp_post 1%N 5%N)); eexists _, _; by left|].
    simpl app.
    thread_reads 0%nat. thread_clock 0%nat 61000. thread_clock 0%nat 61000.
    apply rtc_refl. }
  assert (Hstep : step is_rsvp_request
                    (mkConfig {[ 1%N := launch ]} [rsvp_commit 1%N 5%N])
                    (mkConfig {[ 1%N := launch_joined ]}
                       [FindById 1%N (λ updatedEvent, Ret (Reserved updatedEvent))])).
  { exact (step_run is_rsvp_request 0%nat _ _ _ _
             [rsvp_commit 1%N 5%N] eq_refl
             (ts_update 1%N (rsvp_filter 5%N) (rsvp_update 5%N) _
                {[ 1%N := launch ]})). }
  destruct (rsvp_writes_attendees_only _ _ _ Hreach Hstep) as [_ Hfields].
  exact (Hfields 1%N launch launch_joined eq_refl eq_refl).
Defined.

(** ** The event page against the routes *)

(** The page, case by case, in the order of the source. *)
Lemma event_page_cases now userId event rsvpLoading :
  event_page now (Some userId) event rsvpLoading =
    if (creator event =? userId)%N then CreatorActions
    else if date event <? now then PastEvent
    else if has_attendee userId event then
      DisconnectButton
        (if rsvpLoading then "Disconnecting..." else "Disconnect from Event")
        rsvpLoading
    else if now <? rsvp_open_at event
    then OpensIn (ceil_seconds (rsvp_open_at event - now))
    else
      JoinButton
        (if rsvpLoading then "Joining..."
         else if Z.of_nat (length (attendees event)) >=? capacity event
              then "Event Full" else "Join Event")
        (rsvpLoading
         || (Z.of_nat (length (attendees event)) >=? capacity event)).
Proof.
  unfold event_page, event_actions, has_attendee. cbn [run].
  replace (match rsvpOpenAt event with
           | Some stored => stored
           | None => createdAt event + 60 * 1000
           end) with (rsvp_open_at event)
    by (unfold rsvp_open_at; by destruct (rsvpOpenAt event)).
  rewrite Z.geb_leb.
  destruct (Z.leb_spec (rsvp_open_at event) now) as [Hopen|Hearly];
    cbn [run fst].
  - replace (now <? rsvp_open_at event) with false
      by (symmetry; apply Z.ltb_ge; lia).
    destruct (creator event =? userId)%N; [done|].
    destruct (date event <? now); [done|]. cbn [negb].
    by destruct (existsb _ _).
  - replace (now <? rsvp_open_at event) with true
      by (symmetry; apply Z.ltb_lt; lia).
    destruct (creator event =? userId)%N; [done|].
    destruct (date event <? now); [done|]. cbn [negb].
    by destruct (existsb _ _).
Qed.

(** X17.  The page offers an enabled [Join Event] button to a logged-in user
    exactly when no request of the page is in flight, the user is not the
    creator, and the reservation route, asked at the same instant for the
    event as stored, accepts the reservation. *)
Theorem page_join_iff_accepted now id userId (s : gmap N Event) event rsvpLoading :
  s !! id = Some event →
  event_page now (Some userId) event rsvpLoading = JoinButton "Join Event" false ↔
  rsvpLoading = false ∧
  creator event ≠ userId ∧
  ∃ updated, (run now (rsvp_post id userId) s).1 = Reserved updated.
Proof.
  intros Hs. rewrite event_page_cases.
  destruct (rsvp_post_alone now id userId s) as (_ & Hacc & _). rewrite Hacc.
  destruct (N.eqb_spec (creator event) userId) as [Hc|Hc].
  { split; [discriminate|]. by intros (_ & ? & _). }
  destruct (Z.ltb_spec (date event) now) as [Hpast|Hdate].
  { split; [discriminate|].
    intros (_ & _ & ev & Hev & ? & _). simplify_eq. lia. }
  destruct (has_attendee userId event) eqn:Hin.
  { apply has_attendee_true in Hin. split; [discriminate|].
    intros (_ & _ & ev & Hev & _ & _ & ? & _). by simplify_eq. }
  apply has_attendee_false in Hin.
  destruct (Z.ltb_spec now (rsvp_open_at event)) as [Hearly|Hopen].
  { split; [discriminate|].
    intros (_ & _ & ev & Hev & _ & ? & _). simplify_eq. lia. }
  destruct rsvpLoading.
  { split; [discriminate|]. by intros [? _]. }
  destruct (Z.geb_spec (Z.of_nat (length (attendees event))) (capacity event))
    as [Hfull|Hroom].
  { split; [discriminate|].
    intros (_ & _ & ev & Hev & _ & _ & _ & ?). simplify_eq. lia. }
  split; [|done]. intros _. split; [done|]. split; [done|].
  exists event. repeat split; [done|lia|lia|done|lia].
Qed.

Lemma page_join_iff_accepted_witness :
  event_page 61000 (Some 5%N) launch false = JoinButton "Join Event" false.
Proof.
  apply (page_join_iff_accepted 61000 1%N 5%N {[ 1%N := launch ]} launch false);
    [reflexivity|].
  split; [reflexivity|]. split; [discriminate|].
  eexists. vm_compute. reflexivity.
Defined.

(** X18.  When the page tells a logged-in user that the RSVP opens in some
    seconds, the reservation route asked at the same instant refuses with
    the same number of seconds, which is at least 1; and the page says so
    exactly to a user who is neither the creator nor an attendee of an
    event that is not past and whose window is not open. *)
Theorem page_opens_in now id userId (s : gmap N Event) event rsvpLoading waitTime :
  s !! id = Some event →
  (event_page now (Some userId) event rsvpLoading = OpensIn waitTime ↔
   creator event ≠ userId ∧ (userId ∉ attendees event) ∧
   now ≤ date event ∧ now < rsvp_open_at event ∧
   waitTime = ceil_seconds (rsvp_open_at event - now)) ∧
  (event_page now (Some userId) event rsvpLoading = OpensIn waitTime →
   run now (rsvp_post id userId) s = (WindowNotOpen waitTime, s) ∧
   1 ≤ waitTime).
Proof.
  intros Hs.
  assert (Hiff : event_page now (Some userId) event rsvpLoading = OpensIn waitTime ↔
    creator event ≠ userId ∧ (userId ∉ attendees event) ∧
    now ≤ date event ∧ now < rsvp_open_at event ∧
    waitTime = ceil_seconds (rsvp_open_at event - now)).
  { rewrite event_page_cases.
    destruct (N.eqb_spec (creator event) userId) as [Hc|Hc].
    { split; [discriminate|]. by intros (? & _). }
    destruct (Z.ltb_spec (date event) now) as [Hpast|Hdate].
    { split; [discriminate|]. intros (_ & _ & ? & _). lia. }
    destruct (has_attendee userId event) eqn:Hin.
    { apply has_attendee_true in Hin. split; [discriminate|].
      by intros (_ & ? & _). }
    apply has_attendee_false in Hin.
    destruct (Z.ltb_spec now (rsvp_open_at event)) as [Hearly|Hopen].
    - split; [by intros [= <-]|]. by intros (_ & _ & _ & _ & ->).
    - split; [discriminate|]. intros (_ & _ & _ & ? & _). lia. }
  split; [exact Hiff|].
  intros (_ & _ & Hdate & Hearly & ->)%Hiff.
  rewrite (run_rsvp_post_cases _ _ _ _ _ Hs).
  replace (date event <? now) with false by (symmetry; apply Z.ltb_ge; lia).
  replace (now <? rsvp_open_at event) with true by (symmetry; apply Z.ltb_lt; lia).
  split; [done|].
  pose proof (ceil_seconds_spec (rsvp_open_at event - now)). lia.
Qed.

Lemma page_opens_in_witness :
  run 30000 (rsvp_post 1%N 5%N) {[ 1%N := launch ]} =
    (WindowNotOpen 30, {[ 1%N := launch ]}) ∧
  1 ≤ 30.
Proof.
  destruct (page_opens_in 30000 1%N 5%N {[ 1%N := launch ]} launch false 30)
    as [_ Hroute]; [reflexivity|].
  apply Hroute. reflexivity.
Defined.

(** X19.  The page offers the button that cancels the RSVP exactly to a
    logged-in user who is not the creator and is among the attendees of an
    event that is not past; the cancellation route then accepts.  For a
    past event the page offers no cancellation, whoever attends. *)
Theorem page_disconnect now id userId (s : gmap N Event) event rsvpLoading :
  s !! id = Some event →
  ((∃ label disabled,
      event_page now (Some userId) event rsvpLoading =
        DisconnectButton label disabled) ↔
   creator event ≠ userId ∧ now ≤ date event ∧ userId ∈ attendees event) ∧
  ((∃ label disabled,
      event_page now (Some userId) event rsvpLoading =
        DisconnectButton label disabled) →
   ∃ updated,
     (run now (rsvp_delete id userId) s).1 = Cancelled updated) ∧
  (date event < now → creator event ≠ userId →
   event_page now (Some userId) event rsvpLoading = PastEvent).
Proof.
  intros Hs.
  assert (Hiff : (∃ label disabled,
      event_page now (Some userId) event rsvpLoading =
        DisconnectButton label disabled) ↔
    creator event ≠ userId ∧ now ≤ date event ∧ userId ∈ attendees event).
  { rewrite event_page_cases.
    destruct (N.eqb_spec (creator event) userId) as [Hc|Hc].
    { split; [by intros (? & ? & ?)|]. by intros (? & _). }
    destruct (Z.ltb_spec (date event) now) as [Hpast|Hdate].
    { split; [by intros (? & ? & ?)|]. intros (_ & ? & _). lia. }
    destruct (has_attendee userId event) eqn:Hin.
    - apply has_attendee_true in Hin. split; [done|]. intros _. by eexists _, _.
    - apply has_attendee_false in Hin. split; [|by intros (_ & _ & ?)].
      destruct (now <? rsvp_open_at event); by intros (? & ? & ?). }
  split; [exact Hiff|]. split.
  - intros (_ & _ & Hin)%Hiff. rewrite (run_rsvp_delete _ _ _ _ _ Hs).
    apply has_attendee_true in Hin as ->. by eexists.
  - intros Hpast Hc. rewrite event_page_cases.
    apply N.eqb_neq in Hc as ->.
    by replace (date event <? now) with true by (symmetry; apply Z.ltb_lt; lia).
Qed.

Lemma page_disconnect_witness :
  event_page 100000 (Some 5%N) held_event false = PastEvent.
Proof.
  destruct (page_disconnect 100000 1%N 5%N {[ 1%N := held_event ]} held_event
              false) as (_ & _ & Hpast); [reflexivity|].
  apply Hpast; [simpl; lia | discriminate].
Defined.

(** ** The sanitizer of the examples *)

(** [js_trim] strips blanks, a no-break space (U+00A0, bytes 194 160) and a
    line separator (U+2028, bytes 226 128 168) at both ends, leaves the
    white space inside the text, and does not take the last byte of [à]
    (bytes 195 160) for a no-break space. *)
Example js_trim_examples :
  js_trim "  Launch  party " = "Launch  party" ∧
  js_trim (String "194" (String "160" "Launch")) = "Launch" ∧
  js_trim ("Launch" +:+ String "226" (String "128" (String "168" ""))) = "Launch" ∧
  js_trim (String "194" (String "160" " ")) = "" ∧
  js_trim (String "195" (String "160" "")) = String "195" (String "160" "").
Proof. repeat split. Qed.
